(** * ExAuto: chunking, retrying extraction, recipient validation, orchestration

    A shallow embedding of [ExAuto.py].  Python [str] values are sequences of
    Unicode code points, integers are unbounded ([Z]), and every effect of the
    script (the text-generation service, [time.sleep], [print], file reading,
    SMTP) is threaded through an explicit state that also records a trace of
    what was done. *)

From Stdlib Require Import ZArith Bool Lia String Ascii DecimalString List.
Import ListNotations.
Local Open Scope Z_scope.

(** ** Python strings *)

Module PyStr.

(** A character is a Unicode code point; a [str] is a sequence of them. *)
Definition char := N.
Definition str := list char.

Definition of_string (s : string) : str :=
  map N_of_ascii (list_ascii_of_string s).

Definition chr_space : char := 32%N.
Definition chr_newline : char := 10%N.

Definition in_range (lo hi c : N) : bool := (lo <=? c)%N && (c <=? hi)%N.

(** [str.isspace] on one character (the Unicode white-space set used by
    [str.split()] and [str.strip()]). *)
Definition isspace (c : char) : bool :=
  in_range 9 13 c || in_range 28 32 c || (c =? 133)%N || (c =? 160)%N
  || (c =? 5760)%N || in_range 8192 8202 c || (c =? 8232)%N || (c =? 8233)%N
  || (c =? 8239)%N || (c =? 8287)%N || (c =? 12288)%N.

Definition str_eqb (a b : str) : bool :=
  if list_eq_dec N.eq_dec a b then true else false.

(** [text.split()]: maximal runs of non-white-space characters.  [cur] holds
    the word being read, most recent character first. *)
Fixpoint split_from (cur : str) (s : str) : list str :=
  match s with
  | [] => match cur with [] => [] | _ :: _ => [rev cur] end
  | c :: rest =>
      if isspace c then
        match cur with
        | [] => split_from [] rest
        | _ :: _ => rev cur :: split_from [] rest
        end
      else split_from (c :: cur) rest
  end.

Definition split (s : str) : list str := split_from [] s.

(** [sep.join(parts)]. *)
Fixpoint join (sep : str) (parts : list str) : str :=
  match parts with
  | [] => []
  | [p] => p
  | p :: ps => p ++ sep ++ join sep ps
  end.

(** [s.lstrip()], [s.rstrip()], [s.strip()]. *)
Fixpoint lstrip (s : str) : str :=
  match s with
  | [] => []
  | c :: rest => if isspace c then lstrip rest else s
  end.

Definition rstrip (s : str) : str := rev (lstrip (rev s)).

Definition strip (s : str) : str := rstrip (lstrip s).

(** Truthiness of a [str]: non-empty. *)
Definition truthy (s : str) : bool :=
  match s with [] => false | _ :: _ => true end.

(** [s.split(sep)] for a one-character separator: empty pieces are kept. *)
Fixpoint split_on_from (sep : char) (cur : str) (s : str) : list str :=
  match s with
  | [] => [rev cur]
  | c :: rest =>
      if (c =? sep)%N then rev cur :: split_on_from sep [] rest
      else split_on_from sep (c :: cur) rest
  end.

Definition split_on (sep : char) (s : str) : list str := split_on_from sep [] s.

(** [s.startswith(p)]. *)
Fixpoint startswith (s p : str) : bool :=
  match p, s with
  | [], _ => true
  | _ :: _, [] => false
  | a :: p', b :: s' => (a =? b)%N && startswith s' p'
  end.

Definition no_space (w : str) : Prop := Forall (fun c => isspace c = false) w.

(** A word: non-empty, no white space inside. *)
Definition is_word (w : str) : Prop := w <> [] /\ no_space w.

End PyStr.

(** ** Python integers, ranges and slices *)

Module PyList.

(** [len(range(start, stop, step))] for [step <> 0]. *)
Definition range_length (start stop step : Z) : Z :=
  if 0 <? step then
    if start <? stop then (stop - start - 1) / step + 1 else 0
  else
    if stop <? start then (start - stop - 1) / (- step) + 1 else 0.

(** [range(start, stop, step)]; [None] is the [ValueError] raised for a zero
    step. *)
Definition range (start stop step : Z) : option (list Z) :=
  if step =? 0 then None
  else Some (map (fun k => start + step * Z.of_nat k)
                 (seq 0 (Z.to_nat (range_length start stop step)))).

(** Index normalisation of a slice bound against a list of length [len]. *)
Definition clamp (len i : Z) : Z :=
  if i <? 0 then Z.max 0 (i + len) else Z.min i len.

(** [l[lo:hi]]. *)
Definition slice {A} (l : list A) (lo hi : Z) : list A :=
  let len := Z.of_nat (List.length l) in
  let lo' := clamp len lo in
  let hi' := clamp len hi in
  firstn (Z.to_nat (hi' - lo')) (skipn (Z.to_nat lo') l).

End PyList.

(** ** Outcomes of a Python computation *)

Inductive exn : Type :=
| ValueError (msg : string)
| RuntimeError (msg : string)
| LibraryError (description : PyStr.str).

Inductive outcome (A : Type) : Type :=
| Ret (a : A)
| Raise (e : exn)
| OutOfFuel.

Arguments Ret {A} a.
Arguments Raise {A} e.
Arguments OutOfFuel {A}.

(** Sequencing of pure computations that may raise. *)
Definition and_then {A B} (o : outcome A) (k : A -> outcome B) : outcome B :=
  match o with
  | Ret a => k a
  | Raise e => Raise e
  | OutOfFuel => OutOfFuel
  end.

(** ** The Chunker: [smart_split_text] *)

Module Chunker.
Import PyStr PyList.

Definition smart_split_text (text : str) (model_max_tokens buffer_tokens : Z)
  : outcome (list str) :=
  let words := split text in
  let total_words := Z.of_nat (List.length words) in
  let max_words_per_chunk := model_max_tokens - buffer_tokens in
  if total_words <=? max_words_per_chunk then Ret [text]
  else
    match range 0 total_words max_words_per_chunk with
    | None => Raise (ValueError "range() arg 3 must not be zero")
    | Some indices =>
        Ret (fold_left
               (fun chunks i =>
                  let chunk :=
                    join [chr_space] (slice words i (i + max_words_per_chunk)) in
                  chunks ++ [chunk])
               indices [])
    end.

(** The call made by [main]: default [model_max_tokens=3000],
    [buffer_tokens=500]. *)
Definition smart_split_text_default (text : str) : outcome (list str) :=
  smart_split_text text 3000 500.

(** Number of words of a text, as [len(text.split())]. *)
Definition word_count (text : str) : Z := Z.of_nat (List.length (split text)).

(** Ceiling of [a / b] for a positive [b]. *)
Definition ceil_div (a b : Z) : Z := (a + b - 1) / b.

End Chunker.

(** ** Regular expressions, as used by [is_valid_email] *)

Module Regex.
Import PyStr.

Inductive re : Type :=
| Void
| Eps
| Class (p : char -> bool)
| Cat (r1 r2 : re)
| Alt (r1 r2 : re)
| Star (r : re).

Definition Plus (r : re) : re := Cat r (Star r).

(** [r{2,}] *)
Definition AtLeast2 (r : re) : re := Cat r (Cat r (Star r)).

Definition Chr (c : char) : re := Class (fun x => (x =? c)%N).

Fixpoint nullable (r : re) : bool :=
  match r with
  | Void => false
  | Eps => true
  | Class _ => false
  | Cat r1 r2 => nullable r1 && nullable r2
  | Alt r1 r2 => nullable r1 || nullable r2
  | Star _ => true
  end.

Fixpoint deriv (c : char) (r : re) : re :=
  match r with
  | Void => Void
  | Eps => Void
  | Class p => if p c then Eps else Void
  | Cat r1 r2 =>
      if nullable r1 then Alt (Cat (deriv c r1) r2) (deriv c r2)
      else Cat (deriv c r1) r2
  | Alt r1 r2 => Alt (deriv c r1) (deriv c r2)
  | Star r1 => Cat (deriv c r1) (Star r1)
  end.

(** Does the whole of [s] belong to the language of [r]? *)
Fixpoint fullmatch (r : re) (s : str) : bool :=
  match s with
  | [] => nullable r
  | c :: rest => fullmatch (deriv c r) rest
  end.

(** Truthiness of [re.match('^' + r + '$', s)]: without [re.MULTILINE], [^]
    is the start of [s] and [$] is its end or the position just before a
    newline that ends it. *)
Definition match_anchored (r : re) (s : str) : bool :=
  fullmatch (Cat r (Alt Eps (Chr chr_newline))) s.

(** The language of a regular expression. *)
Inductive lang : re -> str -> Prop :=
| lang_eps : lang Eps []
| lang_class p c : p c = true -> lang (Class p) [c]
| lang_cat r1 r2 s1 s2 : lang r1 s1 -> lang r2 s2 -> lang (Cat r1 r2) (s1 ++ s2)
| lang_alt_l r1 r2 s : lang r1 s -> lang (Alt r1 r2) s
| lang_alt_r r1 r2 s : lang r2 s -> lang (Alt r1 r2) s
| lang_star_nil r : lang (Star r) []
| lang_star_cons r s1 s2 : lang r s1 -> lang (Star r) s2 -> lang (Star r) (s1 ++ s2).

End Regex.

(** ** Recipient validation: [is_valid_email] *)

Module Email.
Import PyStr Regex.

Definition lower (c : char) : bool := in_range 97 122 c.
Definition upper (c : char) : bool := in_range 65 90 c.
Definition digit (c : char) : bool := in_range 48 57 c.
Definition alpha (c : char) : bool := lower c || upper c.

(** [[a-zA-Z0-9._%+-]] *)
Definition local_char (c : char) : bool :=
  alpha c || digit c
  || (c =? 46)%N || (c =? 95)%N || (c =? 37)%N || (c =? 43)%N || (c =? 45)%N.

(** [[a-zA-Z0-9.-]] *)
Definition domain_char (c : char) : bool :=
  alpha c || digit c || (c =? 46)%N || (c =? 45)%N.

(** [[a-zA-Z0-9._%+-]+@[a-zA-Z0-9.-]+\.[a-zA-Z]{2,}], the pattern between [^]
    and [$]. *)
Definition email_regex : re :=
  Cat (Plus (Class local_char))
      (Cat (Chr 64%N)
           (Cat (Plus (Class domain_char))
                (Cat (Chr 46%N) (AtLeast2 (Class alpha))))).

Definition is_valid_email (email : str) : bool :=
  match_anchored email_regex email.

End Email.

(** ** The world outside the script *)

Module Effects.
Import PyStr.

(** A decimal literal [mantissa * 10 ^ exponent], for the sampling
    temperature [0.7]. *)
Record decimal : Type := { mantissa : Z; exponent : Z }.

Record generation_config : Type := {
  max_new_tokens : Z;
  temperature : decimal;
  do_sample : bool;
  return_full_text : bool
}.

Inductive doc_element : Type :=
| Heading (text : str) (level : Z)
| Paragraph (text : str) (style : option string).

Record email_message : Type := {
  msg_from : option str;
  msg_to : str;
  msg_subject : string;
  msg_body : string;
  attachment_filename : string;
  attachment : list doc_element
}.

(** What the script prints. *)
Inductive message : Type :=
| MsgText (s : string)
| MsgTotalChunks (n : Z)
| MsgRetry (n max_retries : Z) (e : exn)
| MsgWaiting (wait_time : Z)
| MsgInvalidEmails (invalid : list str)
| MsgRecipientsError (e : exn)
| MsgEmailSent (recipients : str)
| MsgEmailFailed (e : exn).

Inductive event : Type :=
| EvPrint (m : message)
| EvTextGeneration (prompt : str) (cfg : generation_config)
| EvSleep (seconds : Z)
| EvReadDocument (path : str)
| EvReadRecipients (path : str)
| EvSmtp (msg : email_message).

(** The collaborators of the script: the remote text-generation service, the
    clock, the file system, the process environment, the mail server and the
    document library.  A failing call yields the exception it raises (any
    subclass of [Exception]).  [docx_text_error text] is what python-docx
    does with the text of a heading or of a paragraph: [None] when it stores
    it, [Some e] when [add_heading] or [add_paragraph] raises [e] (a text
    that is not XML compatible, such as one holding a NUL or another control
    character, is refused with a [ValueError]). *)
Record Externals (World : Type) : Type := {
  text_generation :
    str -> generation_config -> World -> (exn + str) * World;
  sleep : Z -> World -> World;
  splitext_lower : str -> str;
  pdf_pages_text : str -> World -> (exn + list str) * World;
  docx_paragraphs_text : str -> World -> (exn + list str) * World;
  read_text_file : str -> World -> (exn + str) * World;
  read_lines : str -> World -> (exn + list str) * World;
  getenv : string -> World -> option str;
  smtp_session :
    option str -> Z -> option str -> option str -> email_message ->
    World -> (exn + unit) * World;
  docx_text_error : str -> option exn
}.

Arguments text_generation {World}.
Arguments sleep {World}.
Arguments splitext_lower {World}.
Arguments pdf_pages_text {World}.
Arguments docx_paragraphs_text {World}.
Arguments read_text_file {World}.
Arguments read_lines {World}.
Arguments getenv {World}.
Arguments smtp_session {World}.
Arguments docx_text_error {World}.

(** The state threaded through the script: the outside world and the trace
    of everything done so far, oldest event first. *)
Record state (World : Type) : Type := { world : World; trace : list event }.

Arguments world {World}.
Arguments trace {World}.

Definition M (World A : Type) : Type :=
  state World -> outcome A * state World.

Definition ret {World A} (a : A) : M World A := fun s => (Ret a, s).

Definition raise {World A} (e : exn) : M World A := fun s => (Raise e, s).

Definition out_of_fuel {World A} : M World A := fun s => (OutOfFuel, s).

Definition bind {World A B} (m : M World A) (k : A -> M World B) : M World B :=
  fun s =>
    match m s with
    | (Ret a, s') => k a s'
    | (Raise e, s') => (Raise e, s')
    | (OutOfFuel, s') => (OutOfFuel, s')
    end.

(** [try: body  except Exception as e: handler e] *)
Definition try_except {World A} (body : M World A) (handler : exn -> M World A)
  : M World A :=
  fun s =>
    match body s with
    | (Raise e, s') => handler e s'
    | other => other
    end.

(** A pure computation that may raise. *)
Definition lift {World A} (o : outcome A) : M World A := fun s => (o, s).

Definition record {World} (e : event) (s : state World) : state World :=
  {| world := world s; trace := trace s ++ [e] |}.

Definition print {World} (m : message) : M World unit :=
  fun s => (Ret tt, record (EvPrint m) s).

(** An external call that returns or raises. *)
Definition call {World A} (e : event) (f : World -> (exn + A) * World)
  : M World A :=
  fun s =>
    let s1 := record e s in
    match f (world s1) with
    | (inr a, w) => (Ret a, {| world := w; trace := trace s1 |})
    | (inl x, w) => (Raise x, {| world := w; trace := trace s1 |})
    end.

Declare Scope py_scope.
Delimit Scope py_scope with py.
Notation "x <- m ;; k" := (bind m (fun x => k))
  (at level 61, m at next level, right associativity) : py_scope.
Notation "m ;; k" := (bind m (fun _ => k))
  (at level 61, right associativity) : py_scope.

(** Observations on a trace. *)
Definition is_call (e : event) : bool :=
  match e with EvTextGeneration _ _ => true | _ => false end.

Definition is_smtp (e : event) : bool :=
  match e with EvSmtp _ => true | _ => false end.

(** The prompts of the service calls made, in order. *)
Fixpoint calls (t : list event) : list str :=
  match t with
  | [] => []
  | EvTextGeneration p _ :: t' => p :: calls t'
  | _ :: t' => calls t'
  end.

(** The durations of the waits performed, in order. *)
Fixpoint sleeps (t : list event) : list Z :=
  match t with
  | [] => []
  | EvSleep z :: t' => z :: sleeps t'
  | _ :: t' => sleeps t'
  end.

(** The mail deliveries attempted, in order. *)
Fixpoint deliveries (t : list event) : list email_message :=
  match t with
  | [] => []
  | EvSmtp m :: t' => m :: deliveries t'
  | _ :: t' => deliveries t'
  end.

Definition total_wait (t : list event) : Z := fold_right Z.add 0 (sleeps t).

End Effects.

(** ** The script *)

Module ExAuto.
Import PyStr PyList Effects Chunker Email.
Local Open Scope py_scope.

Section Script.

Context {World : Type} (ext : Externals World).

(** Module-level settings read from the environment when the script loads. *)
Variable SMTP_SERVER : option str.
Variable SMTP_PORT : Z.

Local Abbreviation Py := (M World).

(** *** Text Extractor: [read_document] *)

Definition read_document (file_path : str) : Py str :=
  let ext_ := splitext_lower ext file_path in
  if str_eqb ext_ (of_string ".pdf") then
    pages <- call (EvReadDocument file_path) (pdf_pages_text ext file_path) ;;
    ret (fold_left (fun text page => text ++ page ++ [chr_newline]) pages [])
  else if str_eqb ext_ (of_string ".docx") then
    paras <- call (EvReadDocument file_path) (docx_paragraphs_text ext file_path) ;;
    ret (fold_left (fun text para => text ++ para ++ [chr_newline]) paras [])
  else if str_eqb ext_ (of_string ".txt") then
    call (EvReadDocument file_path) (read_text_file ext file_path)
  else raise (ValueError "Unsupported file format.").

(** *** Extraction Client: [extract_use_cases] *)

Definition nl : str := [chr_newline].

Definition prompt_head : str :=
  nl
  ++ of_string "    You are a Business Analyst assistant." ++ nl
  ++ nl
  ++ of_string "    Analyze the following business-related text and extract detailed, structured Use Cases." ++ nl
  ++ nl
  ++ of_string "    Document:" ++ nl
  ++ of_string "    " ++ nl
  ++ of_string "    ".

Definition prompt_tail : str :=
  nl
  ++ nl
  ++ of_string "    Format your output exactly like this for each Use Case:" ++ nl
  ++ of_string "    - Use Case Title:" ++ nl
  ++ of_string "    - Actor(s):" ++ nl
  ++ of_string "    - Preconditions:" ++ nl
  ++ of_string "    - Trigger:" ++ nl
  ++ of_string "    - Main Flow:" ++ nl
  ++ of_string "    - Alternative Flows:" ++ nl
  ++ of_string "    - Postconditions:" ++ nl
  ++ of_string "    - Notes:" ++ nl
  ++ nl
  ++ of_string "    Do not include any extra text or explanations. Strictly follow the format. Be clean, professional, and concise." ++ nl
  ++ of_string "    ".

Definition prompt_template (text : str) : str :=
  prompt_head ++ text ++ prompt_tail.

Definition generation_settings : generation_config :=
  {| max_new_tokens := 500;
     temperature := {| mantissa := 7; exponent := -1 |};
     do_sample := true;
     return_full_text := false |}.

Definition client_text_generation (prompt : str) : Py str :=
  call (EvTextGeneration prompt generation_settings)
       (text_generation ext prompt generation_settings).

Definition time_sleep (seconds : Z) : Py unit :=
  fun s =>
    let s1 := record (EvSleep seconds) s in
    (Ret tt, {| world := sleep ext seconds (world s1); trace := trace s1 |}).

Definition exhausted : exn :=
  RuntimeError "Failed to extract use cases after multiple retries.".

(** The [while attempt < max_retries] loop.  One iteration either returns
    the response ([Some]) or, after a failure, prints, waits and falls
    through to the next iteration ([None]). *)
Fixpoint retry_loop (fuel : nat) (prompt : str) (max_retries attempt : Z)
  : Py str :=
  match fuel with
  | O => out_of_fuel
  | S fuel' =>
      if attempt <? max_retries then
        returned <-
          try_except
            (response <- client_text_generation prompt ;;
             ret (Some response))
            (fun e =>
               print (MsgRetry (attempt + 1) max_retries e) ;;
               let wait_time := 2 ^ attempt in
               print (MsgWaiting wait_time) ;;
               time_sleep wait_time ;;
               ret None) ;;
        match returned with
        | Some response => ret response
        | None => retry_loop fuel' prompt max_retries (attempt + 1)
        end
      else raise exhausted
  end.

Definition extract_use_cases (text : str) (max_retries : Z) : Py str :=
  retry_loop (S (Z.to_nat max_retries)) (prompt_template text) max_retries 0.

(** *** Recipients: [read_recipients_from_file] *)

Definition mem (x : str) (l : list str) : bool := existsb (str_eqb x) l.

(** [set(a) - set(b)], listed without repetition.  The order in which Python
    iterates a set is unspecified; only membership is meaningful. *)
Definition set_difference (a b : list str) : list str :=
  nodup (list_eq_dec N.eq_dec) (filter (fun x => negb (mem x b)) a).

Definition read_recipients_from_file (file_path : str) : Py (list str) :=
  try_except
    (lines <- call (EvReadRecipients file_path) (read_lines ext file_path) ;;
     let recipient_emails :=
       map strip (filter (fun line => truthy (strip line)) lines) in
     let valid_emails := filter is_valid_email recipient_emails in
     let invalid_emails := set_difference recipient_emails valid_emails in
     (match invalid_emails with
      | [] => ret tt
      | _ :: _ => print (MsgInvalidEmails invalid_emails)
      end) ;;
     ret valid_emails)
    (fun e => print (MsgRecipientsError e) ;; ret []).

(** *** Document Composer / Mailer: [send_docx_via_email] *)

(** [block.replace("- ", "")] *)
Fixpoint remove_dash_space (block : str) : str :=
  match block with
  | [] => []
  | c :: rest =>
      match rest with
      | [] => [c]
      | d :: rest' =>
          if (c =? 45)%N && (d =? 32)%N then remove_dash_space rest'
          else c :: remove_dash_space rest
      end
  end.

(** The document being built is the list of its elements, in order. *)

(** [doc.add_heading(text, level)] *)
Definition add_heading (doc : list doc_element) (text : str) (level : Z)
  : outcome (list doc_element) :=
  match docx_text_error ext text with
  | None => Ret (doc ++ [Heading text level])
  | Some e => Raise e
  end.

(** [para = doc.add_paragraph(text)], with [para.style = style] when a
    style is given. *)
Definition add_paragraph (doc : list doc_element) (text : str)
    (style : option string) : outcome (list doc_element) :=
  match docx_text_error ext text with
  | None => Ret (doc ++ [Paragraph text style])
  | Some e => Raise e
  end.

(** The body of the loop over the lines of one structured text. *)
Definition render_block (doc : list doc_element) (block : str)
  : outcome (list doc_element) :=
  if str_eqb (strip block) [] then Ret doc
  else if startswith block (of_string "- Use Case Title") then
    add_heading doc (remove_dash_space block) 2
  else if startswith block (of_string "- ") then
    add_paragraph doc block (Some "List Bullet"%string)
  else add_paragraph doc block None.

(** [for block in structured_text.split('\n')] *)
Fixpoint render_blocks (doc : list doc_element) (blocks : list str)
  : outcome (list doc_element) :=
  match blocks with
  | [] => Ret doc
  | block :: rest =>
      and_then (render_block doc block) (fun doc' => render_blocks doc' rest)
  end.

Definition decimal_of_nat (n : nat) : str :=
  of_string (DecimalString.NilZero.string_of_uint (Nat.to_uint n)).

(** The body of the loop over the structured texts. *)
Definition render_chunk (doc : list doc_element) (entry : nat * str)
  : outcome (list doc_element) :=
  let (idx, structured_text) := entry in
  and_then (add_heading doc (of_string "Chunk " ++ decimal_of_nat idx) 1)
           (fun doc' =>
              render_blocks doc' (split_on chr_newline structured_text)).

(** [enumerate(xs, start=1)] *)
Definition enumerate1 {A} (xs : list A) : list (nat * A) :=
  combine (seq 1 (List.length xs)) xs.

(** [for idx, structured_text in enumerate(structured_texts, start=1)] *)
Fixpoint render_chunks (doc : list doc_element) (entries : list (nat * str))
  : outcome (list doc_element) :=
  match entries with
  | [] => Ret doc
  | entry :: rest =>
      and_then (render_chunk doc entry) (fun doc' => render_chunks doc' rest)
  end.

(** The document of [send_docx_via_email], from [Document()] to the end of
    its loops; it raises what the document library raises. *)
Definition compose_document (structured_texts : list str)
  : outcome (list doc_element) :=
  and_then (add_heading [] (of_string "Extracted Use Cases") 0)
           (fun doc => render_chunks doc (enumerate1 structured_texts)).

Definition comma_join (parts : list str) : str := join (of_string ", ") parts.

(** The document is composed and the message is built before the [try]:
    what the composition raises is not caught. *)
Definition send_docx_via_email (structured_texts recipient_emails : list str)
    (sender_email sender_password : option str) : Py unit :=
  doc <- lift (compose_document structured_texts) ;;
  let msg :=
    {| msg_from := sender_email;
       msg_to := comma_join recipient_emails;
       msg_subject := "Extracted Use Cases Document";
       msg_body := "Please find the extracted use cases document attached.";
       attachment_filename := "Extracted_Use_Cases.docx";
       attachment := doc |} in
  try_except
    (call (EvSmtp msg)
          (smtp_session ext SMTP_SERVER SMTP_PORT sender_email sender_password msg) ;;
     print (MsgEmailSent (comma_join recipient_emails)))
    (fun e => print (MsgEmailFailed e)).

(** *** Pipeline Orchestrator: [main] *)

(** The [for chunk in chunks] loop, with the list it appends to. *)
Fixpoint for_each_chunk (chunks : list str) (all_structured_outputs : list str)
  : Py (list str) :=
  match chunks with
  | [] => ret all_structured_outputs
  | chunk :: rest =>
      structured_text <- extract_use_cases chunk 5 ;;
      for_each_chunk rest (all_structured_outputs ++ [structured_text])
  end.

Definition os_getenv (name : string) : Py (option str) :=
  fun s => (Ret (getenv ext name (world s)), s).

Definition main (input_path recipient_path : str) : Py unit :=
  print (MsgText "Reading document...") ;;
  raw_text <- read_document input_path ;;
  print (MsgText "Splitting document into chunks...") ;;
  chunks <- lift (smart_split_text_default raw_text) ;;
  print (MsgTotalChunks (Z.of_nat (List.length chunks))) ;;
  all_structured_outputs <- for_each_chunk chunks [] ;;
  print (MsgText "Reading recipients...") ;;
  recipient_emails <- read_recipients_from_file recipient_path ;;
  print (MsgText "Sending structured output via email...") ;;
  username <- os_getenv "EMAIL_USERNAME" ;;
  password <- os_getenv "EMAIL_PASSWORD" ;;
  send_docx_via_email all_structured_outputs recipient_emails username password ;;
  print (MsgText "Done! Structured document sent to the recipients.").

(** Exit status of the process running [main]: [0] when [main] returns, [1]
    when an exception escapes it. *)
Definition exit_status (o : outcome unit) : Z :=
  match o with
  | Ret _ => 0
  | Raise _ => 1
  | OutOfFuel => 1
  end.

Definition run_script (input_path recipient_path : str) (s : state World)
  : Z * state World :=
  let (o, s') := main input_path recipient_path s in
  (exit_status o, s').

End Script.

End ExAuto.

(** ** Vocabulary of the specification *)

Module Spec.
Import PyStr PyList Effects Chunker Email ExAuto.
Local Open Scope py_scope.

Section Attempts.

Context {World : Type} (ext : Externals World).

(** The world after attempt number [attempt] has failed and its back-off
    wait is over. *)
Definition after_failed_attempt (prompt : str) (attempt : Z) (w : World)
  : World :=
  sleep ext (2 ^ attempt)
        (snd (text_generation ext prompt generation_settings w)).

(** The world in which the [k]-th attempt counted from [attempt] is made,
    when every attempt before it has failed. *)
Fixpoint world_at (prompt : str) (attempt : Z) (w : World) (k : nat) : World :=
  match k with
  | O => w
  | S k' =>
      world_at prompt (attempt + 1) (after_failed_attempt prompt attempt w) k'
  end.

(** What the service answers to attempt [k] (counted from 0) of the
    extraction of [text] started in world [w]. *)
Definition attempt_result (text : str) (w : World) (k : nat) : exn + str :=
  fst (text_generation ext (prompt_template text) generation_settings
         (world_at (prompt_template text) 0 w k)).

Definition failed {A} (r : exn + A) : Prop :=
  match r with inl _ => True | inr _ => False end.

(** Attempt [k] is the first one that succeeds, with [response]. *)
Definition first_success (text : str) (w : World) (k : nat) (response : str)
  : Prop :=
  (forall j, (j < k)%nat -> failed (attempt_result text w j))
  /\ attempt_result text w k = inr response.

(** Each chunk of [chunks], extracted in order from state [s], returns; the
    responses are [outputs] and the state reached is [s']. *)
Inductive extractions
  : list str -> state World -> list str -> state World -> Prop :=
| extractions_nil s : extractions [] s [] s
| extractions_cons chunk chunks s response s1 outputs s2 :
    extract_use_cases ext chunk 5 s = (Ret response, s1) ->
    extractions chunks s1 outputs s2 ->
    extractions (chunk :: chunks) s (response :: outputs) s2.

(** [main] up to its loop: the chunks of the document. *)
Definition prelude (input_path : str) : M World (list str) :=
  print (MsgText "Reading document...") ;;
  raw_text <- read_document ext input_path ;;
  print (MsgText "Splitting document into chunks...") ;;
  chunks <- lift (smart_split_text_default raw_text) ;;
  print (MsgTotalChunks (Z.of_nat (List.length chunks))) ;;
  ret chunks.

(** [main] after its loop: recipients, delivery, last message. *)
Definition epilogue (SMTP_SERVER : option str) (SMTP_PORT : Z)
    (recipient_path : str) (all_structured_outputs : list str)
  : M World unit :=
  print (MsgText "Reading recipients...") ;;
  recipient_emails <- read_recipients_from_file ext recipient_path ;;
  print (MsgText "Sending structured output via email...") ;;
  username <- os_getenv ext "EMAIL_USERNAME" ;;
  password <- os_getenv ext "EMAIL_PASSWORD" ;;
  send_docx_via_email ext SMTP_SERVER SMTP_PORT
    all_structured_outputs recipient_emails username password ;;
  print (MsgText "Done! Structured document sent to the recipients.").

(** The message that [send_docx_via_email] builds around the composed
    document. *)
Definition outgoing_message (doc : list doc_element)
    (recipient_emails : list str) (sender_email : option str)
  : email_message :=
  {| msg_from := sender_email;
     msg_to := comma_join recipient_emails;
     msg_subject := "Extracted Use Cases Document";
     msg_body := "Please find the extracted use cases document attached.";
     attachment_filename := "Extracted_Use_Cases.docx";
     attachment := doc |}.

Definition done_message : event :=
  EvPrint (MsgText "Done! Structured document sent to the recipients.").

(** The mail server refuses every session. *)
Definition mail_down (SMTP_SERVER : option str) (SMTP_PORT : Z) : Prop :=
  forall user password msg w,
    failed (fst (smtp_session ext SMTP_SERVER SMTP_PORT user password msg w)).

(** The claim that a failed delivery ends the run in failure, for one run:
    if the mail server refuses every session, [main] does not return and the
    exit status is not zero. *)
Definition delivery_failure_fatal (SMTP_SERVER : option str) (SMTP_PORT : Z)
    (input_path recipient_path : str) (s : state World) : Prop :=
  mail_down SMTP_SERVER SMTP_PORT ->
  fst (run_script ext SMTP_SERVER SMTP_PORT input_path recipient_path s) <> 0
  /\ (forall u,
        fst (main ext SMTP_SERVER SMTP_PORT input_path recipient_path s)
        <> Ret u).

(** A computation that only adds to the trace, and adds no delivery. *)
Definition quiet {A} (m : M World A) : Prop :=
  forall s, exists new,
    trace (snd (m s)) = trace s ++ new /\ deliveries new = [].

(** A computation that returns or raises, whatever the state. *)
Definition total {A} (m : M World A) : Prop :=
  forall s, fst (m s) <> OutOfFuel.

End Attempts.

(** What a failed attempt leaves in the trace: the call, the two lines
    printed, the wait. *)
Definition failure_events (prompt : str) (max_retries attempt : Z) (e : exn)
  : list event :=
  [EvTextGeneration prompt generation_settings;
   EvPrint (MsgRetry (attempt + 1) max_retries e);
   EvPrint (MsgWaiting (2 ^ attempt));
   EvSleep (2 ^ attempt)].

(** The trace of consecutive failed attempts, the first one numbered
    [attempt], raising [errors] in turn. *)
Fixpoint failures_trace (prompt : str) (max_retries attempt : Z)
    (errors : list exn) : list event :=
  match errors with
  | [] => []
  | e :: rest =>
      failure_events prompt max_retries attempt e
      ++ failures_trace prompt max_retries (attempt + 1) rest
  end.

(** For each wait of a trace, the number of service calls made before it and
    its duration; [n] counts the calls seen so far. *)
Fixpoint waits_after (n : nat) (t : list event) : list (nat * Z) :=
  match t with
  | [] => []
  | EvTextGeneration _ _ :: t' => waits_after (S n) t'
  | EvSleep z :: t' => (n, z) :: waits_after n t'
  | _ :: t' => waits_after n t'
  end.

(** The groups of words that [smart_split_text] joins into chunks, for a
    positive budget [m] smaller than the number of words: group [k] is
    [words[m*k : m*k + m]]. *)
Definition groups (words : list str) (m : Z) : list (list str) :=
  map (fun k => firstn (Z.to_nat m) (skipn (Z.to_nat m * k) words))
      (seq 0 (Z.to_nat (ceil_div (Z.of_nat (length words)) m))).

(** The claim on long texts, for one text and one pair of parameters: when
    the text has more words than the budget, the split returns the ceiling of
    [word_count / budget] chunks, every chunk but the last has as many words
    as the budget, and the chunks split again give the words of the text. *)
Definition split_long_claim (text : str) (model_max_tokens buffer_tokens : Z)
  : Prop :=
  model_max_tokens - buffer_tokens < word_count text ->
  exists chunks,
    smart_split_text text model_max_tokens buffer_tokens = Ret chunks
    /\ Z.of_nat (length chunks)
       = ceil_div (word_count text) (model_max_tokens - buffer_tokens)
    /\ (forall j chunk,
          nth_error chunks j = Some chunk ->
          (S j < length chunks)%nat ->
          word_count chunk = model_max_tokens - buffer_tokens)
    /\ concat (map split chunks) = split text.

(** The entries that recipient validation is said to keep: the non-blank
    lines, stripped, that match the e-mail pattern, in their order. *)
Definition kept (lines : list str) : list str :=
  filter is_valid_email (map strip (filter (fun l => truthy (strip l)) lines)).

(** The entries it is said to drop. *)
Definition dropped (lines : list str) : list str :=
  filter (fun e => negb (is_valid_email e))
         (map strip (filter (fun l => truthy (strip l)) lines)).

(** The reading of the e-mail pattern: [local@domain.tld], optionally
    followed by one final newline. *)
Definition email_shape (e : str) : Prop :=
  exists local domain tld tail,
    e = local ++ [64%N] ++ domain ++ [46%N] ++ tld ++ tail
    /\ local <> [] /\ Forall (fun c => local_char c = true) local
    /\ domain <> [] /\ Forall (fun c => domain_char c = true) domain
    /\ (2 <= List.length tld)%nat /\ Forall (fun c => alpha c = true) tld
    /\ (tail = [] \/ tail = [chr_newline]).

End Spec.

(** ** A scripted world for concrete runs *)

Module Scripted.
Import PyStr Effects Chunker ExAuto Spec.

(** The service answers from a script, one entry per call, and is
    unavailable once the script is used up; the clock adds up the waits; the
    document and the recipients file are fixed. *)
Record script : Type := {
  answers : list (exn + str);
  clock : Z;
  document : exn + str;
  recipients_file : exn + list str
}.

Definition unavailable : exn := LibraryError (of_string "service unavailable").

(** The characters that the scripted document library takes in a text:
    tab, newline, carriage return and everything from the space on. *)
Definition plain_char (c : char) : bool :=
  (c =? 9)%N || (c =? 10)%N || (c =? 13)%N || (32 <=? c)%N.

Definition not_xml_compatible : exn :=
  ValueError "All strings must be XML compatible: Unicode or ASCII, no NULL bytes or control characters".

(** A scripted document library: it refuses a text that holds a NUL or
    another control character, as python-docx does through lxml. *)
Definition refuse_control_characters (text : str) : option exn :=
  if forallb plain_char text then None else Some not_xml_compatible.

(** The collaborators over a script; [mail] is what every mail session
    gives. *)
Definition ext (mail : exn + unit) : Externals script := {|
  text_generation := fun _ _ w =>
    match answers w with
    | [] => (inl unavailable, w)
    | a :: rest =>
        (a, {| answers := rest; clock := clock w; document := document w;
               recipients_file := recipients_file w |})
    end;
  sleep := fun z w =>
    {| answers := answers w; clock := clock w + z; document := document w;
       recipients_file := recipients_file w |};
  splitext_lower := fun _ => of_string ".txt";
  pdf_pages_text := fun _ w => (inl unavailable, w);
  docx_paragraphs_text := fun _ w => (inl unavailable, w);
  read_text_file := fun _ w => (document w, w);
  read_lines := fun _ w => (recipients_file w, w);
  getenv := fun _ _ => Some (of_string "sender@example.com");
  smtp_session := fun _ _ _ _ _ w => (mail, w);
  docx_text_error := refuse_control_characters
|}.

Definition mail_ok : exn + unit := inr tt.
Definition mail_refused : exn + unit := inl unavailable.

Definition start (w : script) : state script :=
  {| world := w; trace := [] |}.

Definition ok (s : string) : exn + str := inr (of_string s).
Definition ko : exn + str := inl unavailable.

Definition candidates : list str :=
  map of_string ["a@b.com"; "not-an-email"; "c@d.org"]%string.

(** The lines of a recipients file holding the candidates, a blank line
    among them. *)
Definition recipient_lines : list str :=
  [of_string "a@b.com" ++ [chr_newline];
   of_string "  not-an-email" ++ [chr_newline];
   [chr_newline];
   of_string "c@d.org  " ++ [chr_newline]].

(** A short document, one chunk. *)
Definition short_run (script_answers : list (exn + str)) : state script :=
  start {| answers := script_answers; clock := 0;
           document := ok "the clerk opens a ticket";
           recipients_file := inr recipient_lines |}.

(** A document of 5001 words: chunks of 2500, 2500 and 1 words. *)
Definition long_text : str :=
  concat (repeat (of_string "w ") (Z.to_nat 5001)).

Definition long_run (script_answers : list (exn + str)) : state script :=
  start {| answers := script_answers; clock := 0;
           document := inr long_text;
           recipients_file := inr recipient_lines |}.

Definition long_chunks : list str :=
  match smart_split_text_default long_text with
  | Ret chunks => chunks
  | _ => []
  end.

Definition input_path : str := of_string "requirements.txt".
Definition recipient_path : str := of_string "recipients.txt".

(** A run over the long document in which the first chunk is extracted at
    once and the service then stays down: the states before the loop, after
    the first chunk, and when the second chunk gives up. *)
Definition abort_run : state script := long_run [ok "first use cases"].

Definition abort_s0 : state script :=
  snd (prelude (ext mail_ok) input_path abort_run).

Definition abort_s1 : state script :=
  snd (extract_use_cases (ext mail_ok) (nth 0 long_chunks []) 5 abort_s0).

Definition abort_s2 : state script :=
  snd (extract_use_cases (ext mail_ok) (nth 1 long_chunks []) 5 abort_s1).

(** A run over the short document in which extraction succeeds and the mail
    server refuses the session. *)
Definition refused_run : state script := short_run [ok "use cases"].

Definition refused_s0 : state script :=
  snd (prelude (ext mail_refused) input_path refused_run).

Definition refused_s1 : state script :=
  snd (extract_use_cases (ext mail_refused)
         (of_string "the clerk opens a ticket") 5 refused_s0).

Definition refused_s2 : state script :=
  snd (read_recipients_from_file (ext mail_refused) recipient_path
         (record (EvPrint (MsgText "Reading recipients...")) refused_s1)).

(** The document composed for that run. *)
Definition refused_doc : list doc_element :=
  [Heading (of_string "Extracted Use Cases") 0;
   Heading (of_string "Chunk 1") 1;
   Paragraph (of_string "use cases") None].

End Scripted.

(** ** Further observations on runs and documents *)

Module Observations.
Import PyStr PyList Effects Chunker Email ExAuto Spec.

(** What an extraction of [text] may leave in the trace: a request for the
    prompt of [text] with the fixed settings, a printed line, a wait; no
    file is read and no mail is sent. *)
Definition extraction_event (text : str) (e : event) : Prop :=
  match e with
  | EvTextGeneration prompt cfg =>
      prompt = prompt_template text /\ cfg = generation_settings
  | EvPrint _ => True
  | EvSleep _ => True
  | EvReadDocument _ => False
  | EvReadRecipients _ => False
  | EvSmtp _ => False
  end.

(** The parts of a paginated or rich-text document, each followed by a
    newline. *)
Definition newline_terminated (parts : list str) : str :=
  concat (map (fun part => part ++ [chr_newline]) parts).

(** A line that [send_docx_via_email] renders: not blank. *)
Definition rendered (block : str) : bool := negb (str_eqb (strip block) []).

(** The texts of the level-1 headings of a document, in order. *)
Fixpoint chunk_headings (doc : list doc_element) : list str :=
  match doc with
  | [] => []
  | Heading text level :: rest =>
      if level =? 1 then text :: chunk_headings rest else chunk_headings rest
  | Paragraph _ _ :: rest => chunk_headings rest
  end.

(** What makes an entry come back unchanged from recipient validation. *)
Definition settled (r : str) : Prop :=
  is_valid_email r = true /\ strip r = r /\ r <> [].

(** A computation that only adds to the trace. *)
Definition extends {World A} (m : M World A) : Prop :=
  forall s, exists new, trace (snd (m s)) = trace s ++ new.

End Observations.

(** ** Scripted worlds for the document formats *)

Module Formats.
Import PyStr Effects Scripted.

(** As [Scripted.ext], for a file whose lower-cased extension is [suffix]; a
    paginated or rich-text document has two parts, each the scripted
    document. *)
Definition ext (suffix : str) (mail : exn + unit) : Externals script := {|
  text_generation := text_generation (Scripted.ext mail);
  sleep := sleep (Scripted.ext mail);
  splitext_lower := fun _ => suffix;
  pdf_pages_text := fun _ w =>
    (match document w with inr d => inr [d; d] | inl e => inl e end, w);
  docx_paragraphs_text := fun _ w =>
    (match document w with inr d => inr [d; d] | inl e => inl e end, w);
  read_text_file := read_text_file (Scripted.ext mail);
  read_lines := read_lines (Scripted.ext mail);
  getenv := getenv (Scripted.ext mail);
  smtp_session := smtp_session (Scripted.ext mail);
  docx_text_error := docx_text_error (Scripted.ext mail)
|}.

(** A run whose recipients file cannot be read. *)
Definition unreadable_run : state script :=
  start {| answers := [ok "use cases"]; clock := 0;
           document := ok "the clerk opens a ticket";
           recipients_file := inl unavailable |}.

(** A run over an empty document. *)
Definition empty_run : state script :=
  start {| answers := [ok "use cases"]; clock := 0;
           document := inr [];
           recipients_file := inr recipient_lines |}.

(** A file written from the two addresses returned for [recipient_lines],
    one per line, the last line without its terminator. *)
Definition validated_lines : list str :=
  [of_string "a@b.com" ++ [chr_newline]; of_string "c@d.org"].

Definition validated_run : state script :=
  start {| answers := []; clock := 0;
           document := ok "the clerk opens a ticket";
           recipients_file := inr validated_lines |}.

(** A response of the service that holds a vertical tab, and a run in which
    the service gives it. *)
Definition control_response : str := of_string "a" ++ [11%N] ++ of_string "b".

Definition control_run : state script :=
  start {| answers := [inr control_response]; clock := 0;
           document := ok "the clerk opens a ticket";
           recipients_file := inr recipient_lines |}.

(** The states of a run of [main] over the short document, for a given mail
    server and a given first state: before the loop, after the extraction,
    after the recipients are read. *)
Definition at_loop (mail : exn + unit) (s : state script) : state script :=
  snd (Spec.prelude (Scripted.ext mail) input_path s).

Definition at_recipients (mail : exn + unit) (s : state script)
  : state script :=
  snd (ExAuto.extract_use_cases (Scripted.ext mail)
         (of_string "the clerk opens a ticket") 5 (at_loop mail s)).

Definition at_sending (mail : exn + unit) (s : state script) : state script :=
  snd (ExAuto.read_recipients_from_file (Scripted.ext mail) recipient_path
         (record (EvPrint (MsgText "Reading recipients..."))
            (at_recipients mail s))).

End Formats.

(** * Properties *)

(** ** Splitting and joining words *)

Section Words.
Import PyStr.

Lemma no_space_rev w : no_space w -> no_space (rev w).
Proof. unfold no_space. intros H. now apply Forall_rev. Qed.

Lemma split_from_words cur s :
  no_space cur -> Forall is_word (split_from cur s).
Proof.
  revert cur. induction s as [|c rest IH]; intros cur Hcur; simpl.
  - destruct cur as [|x cur']; constructor; [|constructor].
    split; [|now apply no_space_rev].
    simpl. intros E. now apply app_eq_nil in E as [_ E].
  - destruct (isspace c) eqn:Ec.
    + destruct cur as [|x cur'].
      * apply IH. constructor.
      * constructor; [|apply IH; constructor].
        split; [|now apply no_space_rev].
        simpl. intros E. now apply app_eq_nil in E as [_ E].
    + apply IH. now constructor.
Qed.

Lemma split_words s : Forall is_word (split s).
Proof. apply split_from_words. constructor. Qed.

(** Reading a word pushes it, reversed, on the word under construction. *)
Lemma split_from_app_word w cur s :
  no_space w -> split_from cur (w ++ s) = split_from (rev w ++ cur) s.
Proof.
  revert cur. induction w as [|c w IH]; intros cur Hw; simpl; [reflexivity|].
  inversion Hw as [|? ? Hc Hw']; subst. rewrite Hc, IH by assumption.
  now rewrite <- app_assoc.
Qed.

Lemma split_from_end cur : cur <> [] -> split_from cur [] = [rev cur].
Proof. destruct cur; [congruence | reflexivity]. Qed.

Lemma split_from_space cur rest :
  cur <> [] ->
  split_from cur (chr_space :: rest) = rev cur :: split_from [] rest.
Proof. destruct cur; [congruence | reflexivity]. Qed.

(** Joining words with single spaces and splitting again gives the words
    back. *)
Lemma split_join ws : Forall is_word ws -> split (join [chr_space] ws) = ws.
Proof.
  unfold split. induction ws as [|w ws IH]; intros H; [reflexivity|].
  inversion H as [|? ? [Hne Hns] Hws]; subst.
  assert (Hrev : rev w ++ [] <> []).
  { rewrite app_nil_r. intros E. apply Hne.
    rewrite <- (rev_involutive w), E. reflexivity. }
  destruct ws as [|w' ws'].
  - simpl. rewrite <- (app_nil_r w) at 1.
    rewrite split_from_app_word, split_from_end by assumption.
    now rewrite app_nil_r, rev_involutive.
  - change (join [chr_space] (w :: w' :: ws'))
      with (w ++ chr_space :: join [chr_space] (w' :: ws')).
    rewrite split_from_app_word, split_from_space by assumption.
    rewrite app_nil_r, rev_involutive. f_equal. now apply IH.
Qed.

End Words.

(** ** Ranges, slices and groups of words *)

Section Groups.
Import PyList.

Context {A : Type}.

Lemma fold_left_snoc {B} (f : B -> A) (l : list B) (acc : list A) :
  fold_left (fun chunks i => chunks ++ [f i]) l acc = acc ++ map f l.
Proof.
  revert acc. induction l as [|x l IH]; intros acc; simpl.
  - now rewrite app_nil_r.
  - rewrite IH, <- app_assoc. reflexivity.
Qed.

(** For an index inside the list and a positive width, a slice is a prefix
    of a suffix. *)
Lemma slice_firstn_skipn (l : list A) (i m : Z) :
  0 <= i <= Z.of_nat (length l) -> 0 < m ->
  slice l i (i + m) = firstn (Z.to_nat m) (skipn (Z.to_nat i) l).
Proof.
  intros Hi Hm. unfold slice, clamp.
  destruct (Z.ltb_spec i 0); [lia|].
  destruct (Z.ltb_spec (i + m) 0); [lia|].
  rewrite (Z.min_l i) by lia.
  destruct (Z.le_gt_cases (i + m) (Z.of_nat (length l))) as [Hle|Hgt].
  - rewrite Z.min_l by lia. f_equal. lia.
  - rewrite Z.min_r by lia.
    rewrite !firstn_all2; [reflexivity | |]; rewrite length_skipn; lia.
Qed.

Lemma firstn_add_skipn (a b : nat) (l : list A) :
  firstn a l ++ firstn b (skipn a l) = firstn (a + b) l.
Proof.
  revert l. induction a as [|a IH]; intros l; simpl; [reflexivity|].
  destruct l as [|x l]; simpl.
  - now rewrite firstn_nil.
  - now rewrite IH.
Qed.

(** The first [n] groups of width [m] together are the first [m * n]
    elements. *)
Lemma concat_groups (m n : nat) (l : list A) :
  concat (map (fun k => firstn m (skipn (m * k) l)) (seq 0 n))
  = firstn (m * n) l.
Proof.
  induction n as [|n IH].
  - now rewrite Nat.mul_0_r.
  - rewrite seq_S, map_app, concat_app, IH. simpl. rewrite app_nil_r.
    rewrite firstn_add_skipn. f_equal. lia.
Qed.

Lemma group_length (m k : nat) (l : list A) :
  (m * k + m <= length l)%nat ->
  length (firstn m (skipn (m * k) l)) = m.
Proof. intros H. rewrite length_firstn, length_skipn. lia. Qed.

Lemma in_firstn (n : nat) (l : list A) (x : A) : In x (firstn n l) -> In x l.
Proof.
  intros H. rewrite <- (firstn_skipn n l). apply in_or_app. now left.
Qed.

Lemma in_skipn (n : nat) (l : list A) (x : A) : In x (skipn n l) -> In x l.
Proof.
  intros H. rewrite <- (firstn_skipn n l). apply in_or_app. now right.
Qed.

End Groups.

(** ** The Chunker *)

Section ChunkerProperties.
Import PyStr PyList Chunker Spec.

Lemma ceil_div_spec (a b : Z) :
  0 < b -> b * (ceil_div a b - 1) < a <= b * ceil_div a b.
Proof.
  intros Hb. unfold ceil_div.
  pose proof (Z.div_mod (a + b - 1) b ltac:(lia)) as E.
  pose proof (Z.mod_pos_bound (a + b - 1) b Hb) as R.
  lia.
Qed.

Lemma range_length_ceil (total m : Z) :
  0 < m -> 0 < total -> range_length 0 total m = ceil_div total m.
Proof.
  intros Hm Ht. unfold range_length, ceil_div.
  destruct (Z.ltb_spec 0 m); [|lia]. destruct (Z.ltb_spec 0 total); [|lia].
  replace (total + m - 1) with (total - 0 - 1 + 1 * m) by lia.
  now rewrite Z.div_add by lia.
Qed.

Lemma smart_split_text_groups text mmt bt :
  0 < mmt - bt -> mmt - bt < word_count text ->
  smart_split_text text mmt bt
  = Ret (map (join [chr_space]) (groups (split text) (mmt - bt))).
Proof.
  unfold word_count, smart_split_text, groups. intros Hm Hlong.
  set (words := split text) in *. set (m := mmt - bt) in *.
  set (total := Z.of_nat (length words)) in *.
  destruct (Z.leb_spec total m); [lia|].
  unfold range. destruct (Z.eqb_spec m 0); [lia|].
  rewrite range_length_ceil by lia.
  rewrite fold_left_snoc. simpl. f_equal.
  rewrite !map_map. apply map_ext_in. intros k Hk.
  apply in_seq in Hk. f_equal.
  pose proof (ceil_div_spec total m Hm) as Hc.
  assert (0 <= ceil_div total m) by nia.
  assert (m * Z.of_nat k < total) by nia.
  rewrite slice_firstn_skipn by (fold total; lia).
  f_equal. f_equal. nia.
Qed.

Lemma groups_concat words m :
  0 < m -> concat (groups words m) = words.
Proof.
  intros Hm. unfold groups. rewrite concat_groups.
  apply firstn_all2.
  pose proof (ceil_div_spec (Z.of_nat (length words)) m Hm). nia.
Qed.

Lemma groups_length words m :
  0 < m -> 0 < Z.of_nat (length words) ->
  Z.of_nat (length (groups words m)) = ceil_div (Z.of_nat (length words)) m.
Proof.
  intros Hm Hw. unfold groups. rewrite length_map, length_seq.
  pose proof (ceil_div_spec (Z.of_nat (length words)) m Hm). nia.
Qed.

Lemma groups_nth words m j g :
  0 < m -> nth_error (groups words m) j = Some g ->
  g = firstn (Z.to_nat m) (skipn (Z.to_nat m * j) words)
  /\ m * Z.of_nat j < Z.of_nat (length words).
Proof.
  intros Hm Hj. unfold groups in Hj.
  rewrite nth_error_map in Hj.
  destruct (nth_error (seq 0 _) j) as [k|] eqn:Ek; [|discriminate].
  injection Hj as <-.
  assert (Hlt : (j < length (seq 0 (Z.to_nat (ceil_div (Z.of_nat (length words)) m))))%nat).
  { apply nth_error_Some. congruence. }
  rewrite length_seq in Hlt.
  rewrite nth_error_nth' with (d := O) in Ek by now rewrite length_seq.
  rewrite seq_nth in Ek by assumption. injection Ek as <-. simpl.
  split; [reflexivity|].
  pose proof (ceil_div_spec (Z.of_nat (length words)) m Hm). nia.
Qed.

Lemma groups_words words m g :
  Forall is_word words -> In g (groups words m) -> Forall is_word g.
Proof.
  intros Hw Hg. unfold groups in Hg. apply in_map_iff in Hg as [k [<- _]].
  apply Forall_forall. intros w Hin. apply in_firstn, in_skipn in Hin.
  revert w Hin. now apply Forall_forall.
Qed.

(** C3: a text with at most [model_max_tokens - buffer_tokens] words is
    returned as the single chunk, unchanged; with the default budget the empty
    text gives the one-element list holding the empty string. *)
Theorem smart_split_text_short text mmt bt :
  word_count text <= mmt - bt ->
  smart_split_text text mmt bt = Ret [text]
  /\ smart_split_text_default [] = Ret [[]].
Proof.
  intros H. split; [|reflexivity].
  unfold smart_split_text. fold (word_count text).
  destruct (Z.leb_spec (word_count text) (mmt - bt)); [reflexivity | lia].
Qed.

Lemma smart_split_text_short_witness :
  word_count [] <= 3000 - 500
  /\ smart_split_text [] 3000 500 = Ret [[]]
  /\ smart_split_text_default [] = Ret [[]].
Proof.
  split; [vm_compute; discriminate|].
  apply (smart_split_text_short [] 3000 500). vm_compute. discriminate.
Defined.

(** C2, for the budgets the code handles: for a positive budget
    [m = model_max_tokens - buffer_tokens] and a text of more than [m] words,
    [smart_split_text] returns
    [ceil(word_count / m)] chunks, every chunk but the last has exactly [m]
    words (the last has between 1 and [m]), and splitting the chunks on white
    space and concatenating gives the words of the text back, in order. *)
Theorem smart_split_text_long text mmt bt :
  0 < mmt - bt ->
  mmt - bt < word_count text ->
  exists chunks,
    smart_split_text text mmt bt = Ret chunks
    /\ Z.of_nat (length chunks) = ceil_div (word_count text) (mmt - bt)
    /\ (forall j chunk,
          nth_error chunks j = Some chunk ->
          (S j < length chunks)%nat -> word_count chunk = mmt - bt)
    /\ (forall chunk,
          In chunk chunks -> 0 < word_count chunk <= mmt - bt)
    /\ concat (map split chunks) = split text.
Proof.
  intros Hm Hlong. set (m := mmt - bt) in *.
  pose proof (split_words text) as Hwords.
  exists (map (join [chr_space]) (groups (split text) m)).
  assert (Hcount : forall g, In g (groups (split text) m) ->
            word_count (join [chr_space] g) = Z.of_nat (length g)).
  { intros g Hg. unfold word_count. rewrite split_join; [reflexivity|].
    now apply groups_words with (words := split text) (m := m). }
  split; [now apply smart_split_text_groups|].
  unfold word_count in Hlong.
  split; [rewrite length_map; apply groups_length; lia|].
  split; [|split].
  - intros j chunk Hj Hlast. rewrite length_map in Hlast.
    rewrite nth_error_map in Hj.
    destruct (nth_error (groups (split text) m) j) as [g|] eqn:Eg;
      [|discriminate].
    injection Hj as <-. rewrite Hcount by (eapply nth_error_In; eassumption).
    destruct (groups_nth _ _ _ _ Hm Eg) as [-> _].
    pose proof (groups_length (split text) m Hm ltac:(lia)) as Hlen.
    pose proof (ceil_div_spec (Z.of_nat (length (split text))) m Hm) as Hc.
    rewrite group_length; [lia|]. nia.
  - intros chunk Hin. apply in_map_iff in Hin as [g [<- Hg]].
    rewrite Hcount by assumption.
    apply In_nth_error in Hg as [j Hj].
    destruct (groups_nth _ _ _ _ Hm Hj) as [-> Hlt].
    rewrite length_firstn, length_skipn. nia.
  - rewrite map_map.
    rewrite (map_ext_in _ (fun g => g)).
    + rewrite map_id. now apply groups_concat.
    + intros g Hg. apply split_join.
      now apply groups_words with (words := split text) (m := m).
Qed.

(** Outside the positive budgets: a zero budget makes [range] raise, a
    negative one gives no chunk at all. *)
Lemma smart_split_text_zero_budget text mmt bt :
  mmt - bt = 0 -> 0 < word_count text ->
  smart_split_text text mmt bt
  = Raise (ValueError "range() arg 3 must not be zero").
Proof.
  intros E H. unfold smart_split_text. fold (word_count text). rewrite E.
  destruct (Z.leb_spec (word_count text) 0); [lia | reflexivity].
Qed.

Lemma smart_split_text_negative_budget text mmt bt :
  mmt - bt < 0 -> smart_split_text text mmt bt = Ret [].
Proof.
  intros H. unfold smart_split_text. fold (word_count text).
  assert (0 <= word_count text) by (unfold word_count; lia).
  destruct (Z.leb_spec (word_count text) (mmt - bt)); [lia|].
  unfold range. destruct (Z.eqb_spec (mmt - bt) 0); [lia|].
  unfold range_length.
  destruct (Z.ltb_spec 0 (mmt - bt)); [lia|].
  destruct (Z.ltb_spec (word_count text) 0); [lia | reflexivity].
Qed.

End ChunkerProperties.

(** ** The Extraction Client *)

Section ExtractionClient.
Import PyStr Effects ExAuto Spec.

Context {World : Type} (ext : Externals World).

Local Abbreviation tg prompt w := (text_generation ext prompt generation_settings w).

(** One turn of the [while] loop. *)
Lemma retry_loop_step fuel prompt max_retries attempt (s : state World) :
  retry_loop ext (S fuel) prompt max_retries attempt s
  = if attempt <? max_retries then
      match tg prompt (world s) with
      | (inr response, w) =>
          (Ret response,
           {| world := w;
              trace := trace s ++ [EvTextGeneration prompt generation_settings] |})
      | (inl e, w) =>
          retry_loop ext fuel prompt max_retries (attempt + 1)
            {| world := sleep ext (2 ^ attempt) w;
               trace := trace s ++ failure_events prompt max_retries attempt e |}
      end
    else (Raise exhausted, s).
Proof.
  simpl. destruct (attempt <? max_retries); [|reflexivity].
  unfold bind at 1. unfold try_except.
  unfold bind at 1. unfold client_text_generation, call. simpl.
  destruct (tg prompt (world s)) as [[e|response] w]; simpl.
  - unfold failure_events. rewrite <- !app_assoc. reflexivity.
  - reflexivity.
Qed.

(** The loop, given enough fuel, makes some failed attempts and then either
    returns the first successful response or, the attempts being used up,
    raises; the trace grows by exactly the events of those attempts. *)
Lemma retry_loop_run fuel : forall prompt max_retries attempt (s : state World),
  (Z.to_nat (max_retries - attempt) < fuel)%nat ->
  exists errors : list exn,
    (forall j e, nth_error errors j = Some e ->
       fst (tg prompt (world_at ext prompt attempt (world s) j)) = inl e)
    /\ ((exists response,
           fst (tg prompt (world_at ext prompt attempt (world s) (length errors)))
           = inr response
           /\ attempt + Z.of_nat (length errors) < max_retries
           /\ retry_loop ext fuel prompt max_retries attempt s
              = (Ret response,
                 {| world :=
                      snd (tg prompt
                             (world_at ext prompt attempt (world s) (length errors)));
                    trace :=
                      trace s ++ failures_trace prompt max_retries attempt errors
                      ++ [EvTextGeneration prompt generation_settings] |}))
        \/ (length errors = Z.to_nat (max_retries - attempt)
            /\ retry_loop ext fuel prompt max_retries attempt s
               = (Raise exhausted,
                  {| world := world_at ext prompt attempt (world s) (length errors);
                     trace :=
                       trace s ++ failures_trace prompt max_retries attempt errors |}))).
Proof.
  induction fuel as [|fuel IH]; intros prompt max_retries attempt s Hfuel; [lia|].
  rewrite retry_loop_step.
  destruct (Z.ltb_spec attempt max_retries) as [Hlt|Hge].
  - destruct (tg prompt (world s)) as [[e|response] w] eqn:Etg.
    + destruct (IH prompt max_retries (attempt + 1)
                  {| world := sleep ext (2 ^ attempt) w;
                     trace := trace s ++ failure_events prompt max_retries attempt e |})
        as [errors [Hfail Hend]]; [lia|].
      simpl in Hfail, Hend.
      assert (Ew : after_failed_attempt ext prompt attempt (world s)
                   = sleep ext (2 ^ attempt) w).
      { unfold after_failed_attempt. now rewrite Etg. }
      exists (e :: errors). split.
      * intros [|j] e' Hj; simpl in *.
        -- injection Hj as <-. now rewrite Etg.
        -- rewrite Ew. now apply Hfail.
      * simpl length. simpl world_at. rewrite Ew. simpl failures_trace.
        rewrite <- !app_assoc in Hend. rewrite <- ?app_assoc.
        destruct Hend as [[response [Hr [Hb Hrun]]]|[Hlen Hrun]].
        -- left. exists response. repeat split; [assumption | lia | exact Hrun].
        -- right. split; [lia | exact Hrun].
    + exists []. split; [intros [|j] e' Hj; discriminate|].
      left. exists response. simpl. rewrite Etg. simpl.
      split; [reflexivity|]. split; [lia | reflexivity].
  - exists []. split; [intros [|j] e' Hj; discriminate|].
    right. simpl. split; [lia|]. rewrite app_nil_r. now destruct s.
Qed.

End ExtractionClient.

(** ** Reading traces *)

Section Traces.
Import PyStr Effects ExAuto Spec.

Lemma calls_app t1 t2 : calls (t1 ++ t2) = calls t1 ++ calls t2.
Proof.
  induction t1 as [|e t1 IH]; [reflexivity|].
  destruct e; simpl; now rewrite ?IH.
Qed.

Lemma sleeps_app t1 t2 : sleeps (t1 ++ t2) = sleeps t1 ++ sleeps t2.
Proof.
  induction t1 as [|e t1 IH]; [reflexivity|].
  destruct e; simpl; now rewrite ?IH.
Qed.

Lemma deliveries_app t1 t2 :
  deliveries (t1 ++ t2) = deliveries t1 ++ deliveries t2.
Proof.
  induction t1 as [|e t1 IH]; [reflexivity|].
  destruct e; simpl; now rewrite ?IH.
Qed.

Lemma calls_failures prompt max_retries attempt errors :
  calls (failures_trace prompt max_retries attempt errors)
  = repeat prompt (length errors).
Proof.
  revert attempt. induction errors as [|e errors IH]; intros attempt;
    [reflexivity|].
  simpl. now rewrite IH.
Qed.

Lemma deliveries_failures prompt max_retries attempt errors :
  deliveries (failures_trace prompt max_retries attempt errors) = [].
Proof.
  revert attempt. induction errors as [|e errors IH]; intros attempt;
    [reflexivity|].
  simpl. now rewrite IH.
Qed.

Lemma sleeps_failures prompt max_retries attempt errors :
  sleeps (failures_trace prompt max_retries attempt errors)
  = map (fun k => 2 ^ (attempt + Z.of_nat k)) (seq 0 (length errors)).
Proof.
  revert attempt. induction errors as [|e errors IH]; intros attempt;
    [reflexivity|].
  simpl. rewrite IH, Z.add_0_r. f_equal.
  rewrite <- seq_shift, map_map. apply map_ext. intros k. f_equal. lia.
Qed.

Lemma waits_after_failures prompt max_retries errors : forall attempt n tail,
  sleeps tail = [] ->
  waits_after n (failures_trace prompt max_retries attempt errors ++ tail)
  = map (fun k => ((n + S k)%nat, 2 ^ (attempt + Z.of_nat k)))
        (seq 0 (length errors)).
Proof.
  induction errors as [|e errors IH]; intros attempt n tail Htail.
  - simpl. revert n. induction tail as [|x tail IHt]; intros n; [reflexivity|].
    destruct x; simpl in *; try discriminate; now apply IHt.
  - simpl. rewrite IH by assumption. rewrite Z.add_0_r, Nat.add_1_r.
    f_equal. rewrite <- seq_shift, map_map. apply map_ext. intros k.
    f_equal; [lia | f_equal; lia].
Qed.

Lemma failures_trace_last prompt max_retries errors : forall attempt,
  errors <> [] ->
  exists front,
    failures_trace prompt max_retries attempt errors
    = front ++ [EvSleep (2 ^ (attempt + Z.of_nat (length errors) - 1))].
Proof.
  induction errors as [|e errors IH]; intros a Hne; [congruence|].
  destruct errors as [|e' errors'].
  - exists [EvTextGeneration prompt generation_settings;
            EvPrint (MsgRetry (a + 1) max_retries e);
            EvPrint (MsgWaiting (2 ^ a))].
    simpl. repeat f_equal. lia.
  - destruct (IH (a + 1)) as [front Hfront]; [discriminate|].
    exists (failure_events prompt max_retries a e ++ front).
    change (failures_trace prompt max_retries a (e :: e' :: errors'))
      with (failure_events prompt max_retries a e
            ++ failures_trace prompt max_retries (a + 1) (e' :: errors')).
    rewrite Hfront, app_assoc. do 4 f_equal. simpl length. lia.
Qed.

Lemma sum_snoc (l : list Z) (x : Z) :
  fold_right Z.add 0 (l ++ [x]) = fold_right Z.add 0 l + x.
Proof. induction l as [|y l IH]; simpl; lia. Qed.

(** [2^a + 2^(a+1) + ... + 2^(a+n-1) = 2^a * (2^n - 1)] *)
Lemma sum_powers (a : Z) (n : nat) :
  0 <= a ->
  fold_right Z.add 0 (map (fun k => 2 ^ (a + Z.of_nat k)) (seq 0 n))
  = 2 ^ a * (2 ^ Z.of_nat n - 1).
Proof.
  intros Ha. induction n as [|n IH].
  - simpl. lia.
  - rewrite seq_S, map_app. cbn [map]. rewrite sum_snoc, IH.
    replace (Z.of_nat (S n)) with (Z.succ (Z.of_nat n)) by lia.
    rewrite Z.pow_succ_r, Z.pow_add_r by lia. cbn [Nat.add]. lia.
Qed.

End Traces.

(** ** The Extraction Client: retries, back-off, exhaustion *)

Section ExtractionClaims.
Import PyStr Effects ExAuto Spec.

Context {World : Type} (ext : Externals World).

(** What a call of [extract_use_cases] does, attempt by attempt. *)
Lemma extract_use_cases_run text max_retries (s : state World) :
  exists errors : list exn,
    (forall j e, nth_error errors j = Some e ->
       attempt_result ext text (world s) j = inl e)
    /\ ((exists response w,
           attempt_result ext text (world s) (length errors) = inr response
           /\ Z.of_nat (length errors) < max_retries
           /\ extract_use_cases ext text max_retries s
              = (Ret response,
                 {| world := w;
                    trace :=
                      trace s
                      ++ failures_trace (prompt_template text) max_retries 0 errors
                      ++ [EvTextGeneration (prompt_template text)
                            generation_settings] |}))
        \/ (length errors = Z.to_nat max_retries
            /\ exists w,
               extract_use_cases ext text max_retries s
               = (Raise exhausted,
                  {| world := w;
                     trace :=
                       trace s
                       ++ failures_trace (prompt_template text) max_retries 0
                            errors |}))).
Proof.
  unfold extract_use_cases, attempt_result.
  destruct (retry_loop_run ext (S (Z.to_nat max_retries)) (prompt_template text)
              max_retries 0 s) as [errors [Hfail Hend]];
    [rewrite Z.sub_0_r; lia|].
  exists errors. split; [exact Hfail|].
  destruct Hend as [[response [Hr [Hb Hrun]]]|[Hlen Hrun]].
  - left. exists response. eexists. repeat split; [exact Hr | lia | exact Hrun].
  - right. rewrite Z.sub_0_r in Hlen. split; [exact Hlen|].
    eexists. exact Hrun.
Qed.

(** C1: with [max_retries >= 1], [extract_use_cases] returns the response of
    the first attempt that succeeds, having made exactly the calls up to that
    attempt; it raises the exhaustion error exactly when all [max_retries]
    attempts fail, raises nothing else, and never makes more than
    [max_retries] calls. *)
Theorem extract_use_cases_retries text max_retries (s : state World) :
  1 <= max_retries ->
  exists new,
    trace (snd (extract_use_cases ext text max_retries s)) = trace s ++ new
    /\ Z.of_nat (length (calls new)) <= max_retries
    /\ (forall k response,
          Z.of_nat k < max_retries ->
          first_success ext text (world s) k response ->
          fst (extract_use_cases ext text max_retries s) = Ret response
          /\ length (calls new) = S k)
    /\ (forall response,
          fst (extract_use_cases ext text max_retries s) = Ret response ->
          exists k, Z.of_nat k < max_retries
                    /\ first_success ext text (world s) k response)
    /\ (fst (extract_use_cases ext text max_retries s) = Raise exhausted
        <-> forall j, Z.of_nat j < max_retries ->
                      failed (attempt_result ext text (world s) j))
    /\ (forall e, fst (extract_use_cases ext text max_retries s) = Raise e ->
                  e = exhausted)
    /\ fst (extract_use_cases ext text max_retries s) <> OutOfFuel.
Proof.
  intros Hmax.
  destruct (extract_use_cases_run text max_retries s)
    as [errors [Hfail [[response [w [Hr [Hb Hrun]]]]|[Hlen [w Hrun]]]]];
    rewrite Hrun; simpl.
  - eexists. split; [reflexivity|].
    rewrite calls_app, calls_failures, length_app, repeat_length. simpl.
    assert (Hfirst : forall k r, first_success ext text (world s) k r ->
                       k = length errors /\ r = response).
    { intros k r [Hbefore Hk].
      destruct (Nat.lt_trichotomy k (length errors)) as [Hlt|[->|Hgt]].
      - destruct (nth_error errors k) as [e|] eqn:Ek.
        + apply Hfail in Ek. congruence.
        + apply nth_error_None in Ek. lia.
      - split; congruence.
      - specialize (Hbefore _ Hgt). rewrite Hr in Hbefore. contradiction. }
    split; [lia|]. split; [|split; [|split; [|split]]].
    + intros k r Hk Hs. destruct (Hfirst k r Hs) as [-> ->].
      split; [reflexivity | lia].
    + intros r E. injection E as <-. exists (length errors).
      split; [lia|]. split; [|exact Hr].
      intros j Hj. destruct (nth_error errors j) as [e|] eqn:Ej.
      * apply Hfail in Ej. now rewrite Ej.
      * apply nth_error_None in Ej. lia.
    + split; [discriminate|]. intros Hall.
      specialize (Hall (length errors) Hb). rewrite Hr in Hall. contradiction.
    + discriminate.
    + discriminate.
  - eexists. split; [reflexivity|].
    rewrite calls_failures, repeat_length.
    assert (Hall : forall j, Z.of_nat j < max_retries ->
                     failed (attempt_result ext text (world s) j)).
    { intros j Hj. destruct (nth_error errors j) as [e|] eqn:Ej.
      - apply Hfail in Ej. now rewrite Ej.
      - apply nth_error_None in Ej. lia. }
    split; [lia|]. split; [|split; [|split; [|split]]].
    + intros k r Hk [_ Hs]. specialize (Hall k Hk). rewrite Hs in Hall.
      contradiction.
    + discriminate.
    + split; [intros _; exact Hall | reflexivity].
    + intros e E. now injection E as <-.
    + discriminate.
Qed.

(** C4: the waits of one extraction, counted from 0: wait [k] comes after
    exactly [k + 1] service calls (after the failure of attempt [k], before
    the retry that follows it) and lasts [2 ^ k]; every call after the first
    is preceded by such a wait. *)
Theorem backoff_wait_power_of_two text max_retries (s : state World) :
  exists new,
    trace (snd (extract_use_cases ext text max_retries s)) = trace s ++ new
    /\ waits_after 0 new
       = map (fun k => (S k, 2 ^ Z.of_nat k)) (seq 0 (length (sleeps new)))
    /\ sleeps new = map (fun k => 2 ^ Z.of_nat k) (seq 0 (length (sleeps new)))
    /\ (length (calls new) <= S (length (sleeps new)))%nat.
Proof.
  destruct (extract_use_cases_run text max_retries s)
    as [errors [Hfail [[response [w [Hr [Hb Hrun]]]]|[Hlen [w Hrun]]]]];
    rewrite Hrun; simpl; eexists; (split; [reflexivity|]).
  - rewrite waits_after_failures by reflexivity.
    rewrite sleeps_app, sleeps_failures, calls_app, calls_failures. simpl.
    rewrite app_nil_r, length_map, length_seq, length_app, repeat_length.
    simpl. repeat split; [lia].
  - rewrite <- (app_nil_r (failures_trace _ _ _ _)) at 1.
    rewrite waits_after_failures by reflexivity.
    rewrite sleeps_failures, calls_failures. simpl.
    rewrite length_map, length_seq, repeat_length.
    repeat split; [lia].
Qed.

(** C9: with [max_retries >= 1], when every attempt fails the last failed
    attempt is followed by a wait of [2 ^ (max_retries - 1)] seconds as well,
    the last thing done before the exhaustion error is raised; the waits are
    [2^0, 2^1, ..., 2^(max_retries - 1)] and add up to [2 ^ max_retries - 1]
    seconds. *)
Theorem exhaustion_total_wait text max_retries (s : state World) :
  1 <= max_retries ->
  (forall j, Z.of_nat j < max_retries ->
             failed (attempt_result ext text (world s) j)) ->
  fst (extract_use_cases ext text max_retries s) = Raise exhausted
  /\ exists front,
       trace (snd (extract_use_cases ext text max_retries s))
       = trace s ++ front ++ [EvSleep (2 ^ (max_retries - 1))]
       /\ Z.of_nat (length (calls (front ++ [EvSleep (2 ^ (max_retries - 1))])))
          = max_retries
       /\ sleeps (front ++ [EvSleep (2 ^ (max_retries - 1))])
          = map (fun k => 2 ^ Z.of_nat k) (seq 0 (Z.to_nat max_retries))
       /\ total_wait (front ++ [EvSleep (2 ^ (max_retries - 1))])
          = 2 ^ max_retries - 1.
Proof.
  intros Hmax Hall.
  destruct (extract_use_cases_run text max_retries s)
    as [errors [Hfail [[response [w [Hr [Hb Hrun]]]]|[Hlen [w Hrun]]]]].
  - specialize (Hall _ Hb). rewrite Hr in Hall. contradiction.
  - rewrite Hrun. simpl. split; [reflexivity|].
    assert (Hlast : exists front,
              failures_trace (prompt_template text) max_retries 0 errors
              = front ++ [EvSleep (2 ^ (max_retries - 1))]).
    { destruct (failures_trace_last (prompt_template text) max_retries errors 0)
        as [front Hfront]; [intros ->; simpl in Hlen; lia|].
      exists front. rewrite Hfront. do 4 f_equal. lia. }
    destruct Hlast as [front Hfront]. exists front. rewrite <- Hfront.
    split; [reflexivity|].
    unfold total_wait.
    rewrite calls_failures, repeat_length, sleeps_failures, Hlen.
    split; [lia|]. split; [reflexivity|].
    rewrite sum_powers by lia. rewrite Z2Nat.id, Z.pow_0_r by lia. lia.
Qed.

(** C10: with [max_retries <= 0] the exhaustion error is raised at once and
    the state is untouched: no service call, no wait. *)
Theorem extract_use_cases_no_attempt text max_retries (s : state World) :
  max_retries <= 0 ->
  extract_use_cases ext text max_retries s = (Raise exhausted, s).
Proof.
  intros Hmax. unfold extract_use_cases. rewrite retry_loop_step.
  destruct (Z.ltb_spec 0 max_retries); [lia | reflexivity].
Qed.

End ExtractionClaims.

(** ** The Orchestrator *)

Section Orchestrator.
Import PyStr Effects Chunker ExAuto Spec.
Local Open Scope py_scope.

Context {World : Type} (ext : Externals World).
Variable SMTP_SERVER : option str.
Variable SMTP_PORT : Z.

Lemma bind_Ret {A B} (m : M World A) (k : A -> M World B) s a s' :
  m s = (Ret a, s') -> bind m k s = k a s'.
Proof. intros E. unfold bind. now rewrite E. Qed.

Lemma bind_Raise {A B} (m : M World A) (k : A -> M World B) s e s' :
  m s = (Raise e, s') -> bind m k s = (Raise e, s').
Proof. intros E. unfold bind. now rewrite E. Qed.

(** *** Computations that attempt no delivery *)

Lemma quiet_ret {A} (a : A) : quiet (ret (World := World) a).
Proof. intros s. exists []. now rewrite app_nil_r. Qed.

Lemma quiet_raise {A} e : quiet (raise (World := World) (A := A) e).
Proof. intros s. exists []. now rewrite app_nil_r. Qed.

Lemma quiet_lift {A} (o : outcome A) : quiet (lift (World := World) o).
Proof. intros s. exists []. now rewrite app_nil_r. Qed.

Lemma quiet_print m : quiet (print (World := World) m).
Proof. intros s. now exists [EvPrint m]. Qed.

Lemma quiet_call {A} e (f : World -> (exn + A) * World) :
  is_smtp e = false -> quiet (call e f).
Proof.
  intros He s. exists [e]. unfold call. simpl.
  destruct (f (world s)) as [[x|a] w]; simpl;
    (split; [reflexivity | now destruct e]).
Qed.

Lemma quiet_bind {A B} (m : M World A) (k : A -> M World B) :
  quiet m -> (forall a, quiet (k a)) -> quiet (bind m k).
Proof.
  intros Hm Hk s. unfold bind. destruct (Hm s) as [n1 [E1 D1]].
  destruct (m s) as [[a|e|] s1]; simpl in *.
  - destruct (Hk a s1) as [n2 [E2 D2]]. exists (n1 ++ n2).
    rewrite E2, E1, app_assoc, deliveries_app, D1, D2. now split.
  - now exists n1.
  - now exists n1.
Qed.

Lemma quiet_try_except {A} (m : M World A) (h : exn -> M World A) :
  quiet m -> (forall e, quiet (h e)) -> quiet (try_except m h).
Proof.
  intros Hm Hh s. unfold try_except. destruct (Hm s) as [n1 [E1 D1]].
  destruct (m s) as [[a|e|] s1]; simpl in *.
  - now exists n1.
  - destruct (Hh e s1) as [n2 [E2 D2]]. exists (n1 ++ n2).
    rewrite E2, E1, app_assoc, deliveries_app, D1, D2. now split.
  - now exists n1.
Qed.

Lemma quiet_extract text max_retries :
  quiet (extract_use_cases ext text max_retries).
Proof.
  intros s.
  destruct (extract_use_cases_run ext text max_retries s)
    as [errors [_ [[response [w [_ [_ Hrun]]]]|[_ [w Hrun]]]]];
    rewrite Hrun; simpl; eexists; (split; [reflexivity|]).
  - now rewrite deliveries_app, deliveries_failures.
  - apply deliveries_failures.
Qed.

Lemma quiet_for_each_chunk chunks : forall acc,
  quiet (for_each_chunk ext chunks acc).
Proof.
  induction chunks as [|chunk rest IH]; intros acc; simpl.
  - apply quiet_ret.
  - apply quiet_bind; [apply quiet_extract | intros r; apply IH].
Qed.

Lemma quiet_read_document path : quiet (read_document ext path).
Proof.
  unfold read_document.
  repeat match goal with |- quiet (if ?b then _ else _) => destruct b end;
    repeat first [ apply quiet_bind; [|intros ?] | apply quiet_call; reflexivity
                 | apply quiet_ret | apply quiet_raise ].
Qed.

Lemma quiet_prelude path : quiet (prelude ext path).
Proof.
  unfold prelude.
  repeat first [ apply quiet_bind; [|intros ?] | apply quiet_print
               | apply quiet_read_document | apply quiet_lift | apply quiet_ret ].
Qed.

Lemma quiet_read_recipients path : quiet (read_recipients_from_file ext path).
Proof.
  unfold read_recipients_from_file. apply quiet_try_except.
  - apply quiet_bind; [apply quiet_call; reflexivity | intros lines].
    apply quiet_bind; [|intros ?; apply quiet_ret].
    destruct (set_difference _ _); [apply quiet_ret | apply quiet_print].
  - intros e. apply quiet_bind; [apply quiet_print | intros ?; apply quiet_ret].
Qed.

(** *** Totality *)

Lemma total_extract text max_retries :
  total (extract_use_cases ext text max_retries).
Proof.
  intros s.
  destruct (extract_use_cases_run ext text max_retries s)
    as [errors [_ [[response [w [_ [_ Hrun]]]]|[_ [w Hrun]]]]];
    rewrite Hrun; discriminate.
Qed.

Lemma total_for_each_chunk chunks : forall acc,
  total (for_each_chunk ext chunks acc).
Proof.
  induction chunks as [|chunk rest IH]; intros acc s; simpl; [discriminate|].
  unfold bind. pose proof (total_extract chunk 5 s) as Ht.
  destruct (extract_use_cases ext chunk 5 s) as [[r|e|] s1]; simpl in *.
  - apply IH.
  - discriminate.
  - congruence.
Qed.

(** *** The loop over the chunks *)

Lemma for_each_chunk_app pre : forall post acc (s : state World),
  for_each_chunk ext (pre ++ post) acc s
  = bind (for_each_chunk ext pre acc) (for_each_chunk ext post) s.
Proof.
  induction pre as [|chunk pre IH]; intros post acc s; simpl; [reflexivity|].
  unfold bind.
  destruct (extract_use_cases ext chunk 5 s) as [[r|e|] s1]; simpl.
  - rewrite IH. reflexivity.
  - reflexivity.
  - reflexivity.
Qed.

Lemma for_each_chunk_extractions chunks : forall acc s outputs s',
  extractions ext chunks s outputs s' ->
  for_each_chunk ext chunks acc s = (Ret (acc ++ outputs), s').
Proof.
  induction chunks as [|chunk rest IH]; intros acc s outputs s' H;
    inversion H as [|? ? ? r s1 outs ? Hx Hrest]; subst; simpl.
  - now rewrite app_nil_r.
  - unfold bind. rewrite Hx. rewrite (IH _ _ _ _ Hrest).
    now rewrite <- app_assoc.
Qed.

Lemma for_each_chunk_returns chunks : forall acc s result s',
  for_each_chunk ext chunks acc s = (Ret result, s') ->
  exists outputs, result = acc ++ outputs /\ extractions ext chunks s outputs s'.
Proof.
  induction chunks as [|chunk rest IH]; intros acc s result s' H; simpl in H.
  - injection H as <- <-. exists []. split; [now rewrite app_nil_r | constructor].
  - unfold bind in H.
    destruct (extract_use_cases ext chunk 5 s) as [[r|e|] s1] eqn:E;
      try discriminate.
    apply IH in H as [outputs [-> Hx]]. exists (r :: outputs).
    split; [now rewrite <- app_assoc | econstructor; eassumption].
Qed.

Lemma extractions_length chunks : forall s outputs s',
  extractions ext chunks s outputs s' -> length outputs = length chunks.
Proof.
  induction chunks as [|chunk rest IH]; intros s outputs s' H;
    inversion H as [|? ? ? r s1 outs ? Hx Hrest]; subst; simpl; [reflexivity|].
  f_equal. eapply IH; eassumption.
Qed.

Lemma extractions_nth chunks : forall s outputs s' i chunk,
  extractions ext chunks s outputs s' ->
  nth_error chunks i = Some chunk ->
  exists si response si',
    extractions ext (firstn i chunks) s (firstn i outputs) si
    /\ extract_use_cases ext chunk 5 si = (Ret response, si')
    /\ nth_error outputs i = Some response.
Proof.
  induction chunks as [|c rest IH]; intros s outputs s' i chunk H Hi.
  - destruct i; discriminate.
  - inversion H as [|? ? ? r s1 outs ? Hx Hrest]; subst.
    destruct i as [|i]; simpl in *.
    + injection Hi as <-. exists s, r, s1.
      split; [constructor | now split].
    + destruct (IH _ _ _ _ _ Hrest Hi) as [si [r' [si' [Hpre [Hx' Hn]]]]].
      exists si, r', si'. split; [econstructor; eassumption | now split].
Qed.

Lemma extractions_quiet chunks : forall s outputs s',
  extractions ext chunks s outputs s' ->
  exists new, trace s' = trace s ++ new /\ deliveries new = [].
Proof.
  intros s outputs s' H.
  pose proof (for_each_chunk_extractions chunks [] s outputs s' H) as E.
  destruct (quiet_for_each_chunk chunks [] s) as [new Hnew].
  rewrite E in Hnew. now exists new.
Qed.

(** [main] is its three phases in sequence. *)
Lemma main_phases input_path recipient_path (s : state World) :
  main ext SMTP_SERVER SMTP_PORT input_path recipient_path s
  = bind (prelude ext input_path)
         (fun chunks =>
            bind (for_each_chunk ext chunks [])
                 (epilogue ext SMTP_SERVER SMTP_PORT recipient_path)) s.
Proof.
  unfold main, prelude, epilogue, bind, print, lift, ret. simpl.
  destruct (read_document ext input_path _) as [[raw|e|] s1]; try reflexivity.
  destruct (smart_split_text_default raw) as [chunks|e|]; reflexivity.
Qed.

End Orchestrator.

(** ** Regular expressions: the matcher decides the language *)

Section RegexProperties.
Import PyStr Regex.

Lemma lang_void_inv s : ~ lang Void s.
Proof. intros H. inversion H. Qed.

Lemma lang_eps_inv s : lang Eps s -> s = [].
Proof. intros H. now inversion H. Qed.

Lemma lang_class_inv p s : lang (Class p) s -> exists c, s = [c] /\ p c = true.
Proof. intros H. inversion H; subst. eauto. Qed.

Lemma lang_cat_inv r1 r2 s :
  lang (Cat r1 r2) s -> exists s1 s2, s = s1 ++ s2 /\ lang r1 s1 /\ lang r2 s2.
Proof. intros H. inversion H; subst. eauto. Qed.

Lemma lang_alt_inv r1 r2 s : lang (Alt r1 r2) s -> lang r1 s \/ lang r2 s.
Proof. intros H. inversion H; subst; auto. Qed.

Lemma lang_star_cons_inv r c s :
  lang (Star r) (c :: s) ->
  exists s1 s2, s = s1 ++ s2 /\ lang r (c :: s1) /\ lang (Star r) s2.
Proof.
  intros H. remember (Star r) as r' eqn:Er. remember (c :: s) as s' eqn:Es.
  revert s Es.
  induction H as [| | | | | |r0 s1 s2 H1 _ H2 IH2]; intros t Et;
    try discriminate.
  injection Er as ->. destruct s1 as [|c1 s1].
  - simpl in Et. now apply IH2.
  - simpl in Et. injection Et as -> <-. eauto.
Qed.

Lemma nullable_lang r : nullable r = true <-> lang r [].
Proof.
  induction r as [| |p|r1 IH1 r2 IH2|r1 IH1 r2 IH2|r IH]; simpl.
  - split; [discriminate | intros H; now apply lang_void_inv in H].
  - split; [constructor | reflexivity].
  - split; [discriminate|]. intros H.
    apply lang_class_inv in H as [c [E _]]. discriminate.
  - rewrite andb_true_iff, IH1, IH2. split.
    + intros [H1 H2]. exact (lang_cat r1 r2 [] [] H1 H2).
    + intros H. apply lang_cat_inv in H as [s1 [s2 [E [H1 H2]]]].
      symmetry in E. apply app_eq_nil in E as [-> ->]. now split.
  - rewrite orb_true_iff, IH1, IH2. split.
    + intros [H|H]; [now apply lang_alt_l | now apply lang_alt_r].
    + apply lang_alt_inv.
  - split; [constructor | reflexivity].
Qed.

Lemma deriv_lang c r : forall s, lang (deriv c r) s <-> lang r (c :: s).
Proof.
  induction r as [| |p|r1 IH1 r2 IH2|r1 IH1 r2 IH2|r IH]; intros s; simpl.
  - split; intros H; now apply lang_void_inv in H.
  - split; intros H; [now apply lang_void_inv in H|].
    apply lang_eps_inv in H. discriminate.
  - destruct (p c) eqn:Ep; split; intros H.
    + apply lang_eps_inv in H as ->. now constructor.
    + apply lang_class_inv in H as [c' [E _]]. injection E as <- ->.
      constructor.
    + now apply lang_void_inv in H.
    + apply lang_class_inv in H as [c' [E Hp]]. injection E as <- ->.
      congruence.
  - assert (Hcat : lang (Cat (deriv c r1) r2) s ->  lang (Cat r1 r2) (c :: s)).
    { intros H. apply lang_cat_inv in H as [s1 [s2 [-> [H1 H2]]]].
      apply IH1 in H1. exact (lang_cat r1 r2 (c :: s1) s2 H1 H2). }
    assert (Hinv : lang (Cat r1 r2) (c :: s) ->
                   lang (Cat (deriv c r1) r2) s
                   \/ (lang r1 [] /\ lang r2 (c :: s))).
    { intros H. apply lang_cat_inv in H as [s1 [s2 [E [H1 H2]]]].
      destruct s1 as [|c1 s1]; simpl in E.
      - right. subst s2. now split.
      - injection E as <- ->. left. apply IH1 in H1. now constructor. }
    destruct (nullable r1) eqn:En; split; intros H.
    + apply lang_alt_inv in H as [H|H]; [now apply Hcat|].
      apply IH2 in H. apply nullable_lang in En.
      exact (lang_cat r1 r2 [] (c :: s) En H).
    + apply Hinv in H as [H|[_ H]]; [now apply lang_alt_l|].
      apply lang_alt_r. now apply IH2.
    + now apply Hcat.
    + apply Hinv in H as [H|[H _]]; [assumption|].
      apply nullable_lang in H. congruence.
  - split; intros H.
    + apply lang_alt_inv in H as [H|H];
        [apply lang_alt_l; now apply IH1 | apply lang_alt_r; now apply IH2].
    + apply lang_alt_inv in H as [H|H];
        [apply lang_alt_l; now apply IH1 | apply lang_alt_r; now apply IH2].
  - split; intros H.
    + apply lang_cat_inv in H as [s1 [s2 [-> [H1 H2]]]]. apply IH in H1.
      exact (lang_star_cons r (c :: s1) s2 H1 H2).
    + apply lang_star_cons_inv in H as [s1 [s2 [-> [H1 H2]]]].
      apply IH in H1. now constructor.
Qed.

Theorem fullmatch_lang r s : fullmatch r s = true <-> lang r s.
Proof.
  revert r. induction s as [|c s IH]; intros r; simpl.
  - apply nullable_lang.
  - rewrite IH. apply deriv_lang.
Qed.

(** Repetitions of a character class. *)
Lemma lang_star_class p s :
  lang (Star (Class p)) s <-> Forall (fun c => p c = true) s.
Proof.
  split.
  - induction s as [|c s IH]; intros H; [constructor|].
    apply lang_star_cons_inv in H as [s1 [s2 [-> [H1 H2]]]].
    apply lang_class_inv in H1 as [c' [E Hp]]. injection E as E1 E2.
    subst c' s1. constructor; [assumption | now apply IH].
  - induction 1 as [|c s Hp _ IH]; [constructor|].
    exact (lang_star_cons (Class p) [c] s (lang_class p c Hp) IH).
Qed.

Lemma lang_plus_class p s :
  lang (Plus (Class p)) s <-> s <> [] /\ Forall (fun c => p c = true) s.
Proof.
  unfold Plus. split.
  - intros H. apply lang_cat_inv in H as [s1 [s2 [-> [H1 H2]]]].
    apply lang_class_inv in H1 as [c [-> Hp]]. apply lang_star_class in H2.
    split; [discriminate | now constructor].
  - intros [Hne H]. destruct s as [|c s]; [congruence|].
    inversion H; subst.
    apply (lang_cat (Class p) (Star (Class p)) [c] s);
      [now constructor | now apply lang_star_class].
Qed.

Lemma lang_atleast2_class p s :
  lang (AtLeast2 (Class p)) s
  <-> (2 <= length s)%nat /\ Forall (fun c => p c = true) s.
Proof.
  unfold AtLeast2. split.
  - intros H. apply lang_cat_inv in H as [s1 [s2 [-> [H1 H2]]]].
    apply lang_cat_inv in H2 as [s2' [s3 [-> [H2 H3]]]].
    apply lang_class_inv in H1 as [c1 [-> Hp1]].
    apply lang_class_inv in H2 as [c2 [-> Hp2]].
    apply lang_star_class in H3. simpl.
    split; [lia | now repeat constructor].
  - intros [Hlen H]. destruct s as [|c1 [|c2 s]]; simpl in Hlen; try lia.
    inversion H as [|? ? Hp1 H']; subst. inversion H' as [|? ? Hp2 H'']; subst.
    apply (lang_cat (Class p) _ [c1] (c2 :: s)); [now constructor|].
    apply (lang_cat (Class p) _ [c2] s);
      [now constructor | now apply lang_star_class].
Qed.

Lemma lang_chr c s : lang (Chr c) s <-> s = [c].
Proof.
  unfold Chr. split.
  - intros H. apply lang_class_inv in H as [c' [-> Hp]].
    apply N.eqb_eq in Hp. now subst.
  - intros ->. constructor. apply N.eqb_refl.
Qed.

End RegexProperties.

(** ** Recipient validation *)

Section Recipients.
Import PyStr Regex Email Effects ExAuto Spec.

(** [is_valid_email] accepts exactly the strings of the shape
    [local@domain.tld], with an optional final newline. *)
Theorem is_valid_email_shape e : is_valid_email e = true <-> email_shape e.
Proof.
  unfold is_valid_email, match_anchored, email_regex, email_shape.
  rewrite fullmatch_lang. split.
  - intros H.
    apply lang_cat_inv in H as [body [tail [-> [H Htail]]]].
    apply lang_cat_inv in H as [lp [r1 [-> [Hlocal H]]]].
    apply lang_cat_inv in H as [sep [r2 [-> [Hat H]]]].
    apply lang_cat_inv in H as [dp [r3 [-> [Hdomain H]]]].
    apply lang_cat_inv in H as [dot [tp [-> [Hdot Htld]]]].
    apply lang_plus_class in Hlocal as [? ?].
    apply lang_plus_class in Hdomain as [? ?].
    apply lang_atleast2_class in Htld as [? ?].
    apply lang_chr in Hat as ->. apply lang_chr in Hdot as ->.
    exists lp, dp, tp, tail.
    repeat split; try assumption.
    + now rewrite <- !app_assoc.
    + apply lang_alt_inv in Htail as [Ht|Ht];
        [left; now apply lang_eps_inv | right; now apply lang_chr].
  - intros [lp [dp [tp [tail [-> [? [? [? [? [? [? Htail]]]]]]]]]]].
    replace (lp ++ [64%N] ++ dp ++ [46%N] ++ tp ++ tail)
      with ((lp ++ [64%N] ++ dp ++ [46%N] ++ tp) ++ tail)
      by now rewrite <- !app_assoc.
    constructor.
    + constructor; [now apply lang_plus_class|].
      constructor; [now apply lang_chr|].
      constructor; [now apply lang_plus_class|].
      constructor; [now apply lang_chr | now apply lang_atleast2_class].
    + destruct Htail as [-> | ->];
        [apply lang_alt_l; constructor | apply lang_alt_r; now apply lang_chr].
Qed.

Context {World : Type} (ext : Externals World).

Lemma str_eqb_eq a b : str_eqb a b = true <-> a = b.
Proof.
  unfold str_eqb. destruct (list_eq_dec N.eq_dec a b); split; congruence.
Qed.

Lemma mem_In x l : mem x l = true <-> In x l.
Proof.
  unfold mem. rewrite existsb_exists. split.
  - intros [y [Hy E]]. apply str_eqb_eq in E. now subst.
  - intros H. exists x. split; [assumption | now apply str_eqb_eq].
Qed.

(** [set(a) - set(filter f a)] holds the elements of [a] that fail [f]. *)
Lemma set_difference_filter (f : str -> bool) a e :
  In e (set_difference a (filter f a))
  <-> In e (filter (fun x => negb (f x)) a).
Proof.
  unfold set_difference. rewrite nodup_In, !filter_In. split.
  - intros [Ha Hm]. split; [assumption|].
    destruct (f e) eqn:Ef; [|reflexivity].
    assert (Hin : In e (filter f a)) by (apply filter_In; now split).
    apply mem_In in Hin. now rewrite Hin in Hm.
  - intros [Ha Hf]. split; [assumption|].
    destruct (mem e (filter f a)) eqn:Em; [|reflexivity].
    apply mem_In, filter_In in Em as [_ Ef]. now rewrite Ef in Hf.
Qed.

Lemma kept_app l1 l2 : kept (l1 ++ l2) = kept l1 ++ kept l2.
Proof. unfold kept. now rewrite filter_app, map_app, filter_app. Qed.

Lemma kept_In lines e :
  In e (kept lines)
  <-> exists line, In line lines /\ strip line = e /\ e <> [] /\ email_shape e.
Proof.
  unfold kept. rewrite filter_In, in_map_iff, is_valid_email_shape. split.
  - intros [[line [<- Hl]] Hshape]. apply filter_In in Hl as [Hin Hne].
    exists line. repeat split; try assumption.
    now destruct (strip line).
  - intros [line [Hin [<- [Hne Hshape]]]]. split; [|assumption].
    exists line. split; [reflexivity|]. apply filter_In.
    split; [assumption | now destruct (strip line)].
Qed.

Lemma dropped_In lines e :
  In e (dropped lines)
  <-> exists line, In line lines /\ strip line = e /\ e <> [] /\ ~ email_shape e.
Proof.
  unfold dropped. rewrite filter_In, in_map_iff, negb_true_iff. split.
  - intros [[line [<- Hl]] Hshape]. apply filter_In in Hl as [Hin Hne].
    exists line. split; [assumption|]. split; [reflexivity|].
    split; [now destruct (strip line)|].
    intros Hs. apply is_valid_email_shape in Hs. congruence.
  - intros [line [Hin [<- [Hne Hshape]]]]. split.
    + exists line. split; [reflexivity|]. apply filter_In.
      split; [assumption | now destruct (strip line)].
    + apply not_true_iff_false. intros Hv. apply Hshape.
      now apply is_valid_email_shape.
Qed.

(** The function never raises: an unreadable file gives no recipient. *)
Lemma read_recipients_returns path (s : state World) :
  exists recipients s',
    read_recipients_from_file ext path s = (Ret recipients, s').
Proof.
  unfold read_recipients_from_file, try_except, bind, call, print, ret. simpl.
  destruct (read_lines ext path (world s)) as [[e|lines] w]; simpl.
  - eauto.
  - destruct (set_difference _ _); simpl; eauto.
Qed.

Lemma read_recipients_unreadable path (s : state World) e w :
  read_lines ext path (world s) = (inl e, w) ->
  read_recipients_from_file ext path s
  = (Ret [],
     {| world := w;
        trace := trace s ++ [EvReadRecipients path;
                             EvPrint (MsgRecipientsError e)] |}).
Proof.
  intros H.
  unfold read_recipients_from_file, try_except, bind, call, print, ret, record.
  simpl. rewrite H. simpl. now rewrite <- app_assoc.
Qed.

(** C8: recipient validation returns, in their order, the non-blank lines
    (stripped) that match the e-mail pattern; every other non-blank entry is
    dropped and named in one printed warning, and nothing is raised.  The
    candidates [a@b.com], [not-an-email], [c@d.org] give [a@b.com],
    [c@d.org]. *)
Theorem recipients_validated path (s : state World) lines w :
  read_lines ext path (world s) = (inr lines, w) ->
  exists warnings,
    read_recipients_from_file ext path s
    = (Ret (kept lines),
       {| world := w;
          trace := trace s ++ EvReadRecipients path :: warnings |})
    /\ (dropped lines = [] -> warnings = [])
    /\ (dropped lines <> [] ->
        exists invalid,
          warnings = [EvPrint (MsgInvalidEmails invalid)]
          /\ forall e, In e invalid <-> In e (dropped lines))
    /\ (forall e,
          In e (kept lines)
          <-> exists line,
                In line lines /\ strip line = e /\ e <> [] /\ email_shape e)
    /\ (forall l1 l2, kept (l1 ++ l2) = kept l1 ++ kept l2)
    /\ kept (map of_string ["a@b.com"; "not-an-email"; "c@d.org"]%string)
       = map of_string ["a@b.com"; "c@d.org"]%string
    /\ dropped (map of_string ["a@b.com"; "not-an-email"; "c@d.org"]%string)
       = map of_string ["not-an-email"]%string.
Proof.
  intros H.
  set (recipient_emails := map strip (filter (fun l => truthy (strip l)) lines)).
  set (invalid := set_difference recipient_emails
                    (filter is_valid_email recipient_emails)).
  assert (Hinv : forall e, In e invalid <-> In e (dropped lines)).
  { intros e. apply set_difference_filter. }
  exists (match invalid with
          | [] => []
          | _ :: _ => [EvPrint (MsgInvalidEmails invalid)]
          end).
  split; [|split; [|split; [|split; [|split; [|split]]]]].
  - unfold read_recipients_from_file, try_except, bind, call, print, ret, record.
    simpl. rewrite H. simpl.
    fold recipient_emails. fold invalid.
    destruct invalid; simpl; rewrite <- ?app_assoc; reflexivity.
  - intros Hd. destruct invalid as [|x l]; [reflexivity|].
    assert (Hx : In x (dropped lines)) by (apply Hinv; now left).
    rewrite Hd in Hx. contradiction.
  - intros Hd. exists invalid. split; [|exact Hinv].
    destruct invalid as [|x l]; [|reflexivity].
    destruct (dropped lines) as [|y d]; [congruence|].
    assert (Hy : In y []) by (apply Hinv; now left). contradiction.
  - apply kept_In.
  - apply kept_app.
  - vm_compute. reflexivity.
  - vm_compute. reflexivity.
Qed.

End Recipients.

(** ** The Orchestrator: order, abort, delivery *)

Section OrchestratorClaims.
Import PyStr Effects Chunker ExAuto Spec.
Local Open Scope py_scope.

Context {World : Type} (ext : Externals World).
Variable SMTP_SERVER : option str.
Variable SMTP_PORT : Z.

(** *** [main] always returns or raises *)

Lemma total_ret {A} (a : A) : total (ret (World := World) a).
Proof. intros s. discriminate. Qed.

Lemma total_raise {A} e : total (raise (World := World) (A := A) e).
Proof. intros s. discriminate. Qed.

Lemma total_print m : total (print (World := World) m).
Proof. intros s. discriminate. Qed.

Lemma total_call {A} e (f : World -> (exn + A) * World) : total (call e f).
Proof.
  intros s. unfold call. simpl.
  destruct (f (world s)) as [[x|a] w]; discriminate.
Qed.

Lemma total_bind {A B} (m : M World A) (k : A -> M World B) :
  total m -> (forall a, total (k a)) -> total (bind m k).
Proof.
  intros Hm Hk s. unfold bind. specialize (Hm s).
  destruct (m s) as [[a|e|] s1]; simpl in *;
    [apply Hk | discriminate | congruence].
Qed.

Lemma total_try_except {A} (m : M World A) (h : exn -> M World A) :
  total m -> (forall e, total (h e)) -> total (try_except m h).
Proof.
  intros Hm Hh s. unfold try_except. specialize (Hm s).
  destruct (m s) as [[a|e|] s1]; simpl in *;
    [discriminate | apply Hh | congruence].
Qed.

(** Composing the document returns or raises. *)
Lemma and_then_settles {A B} (o : outcome A) (k : A -> outcome B) :
  o <> OutOfFuel -> (forall a, k a <> OutOfFuel) -> and_then o k <> OutOfFuel.
Proof. intros Ho Hk. destruct o; simpl; [apply Hk | discriminate | congruence]. Qed.

Lemma add_heading_settles doc text level :
  add_heading ext doc text level <> OutOfFuel.
Proof. unfold add_heading. destruct (docx_text_error ext text); discriminate. Qed.

Lemma add_paragraph_settles doc text style :
  add_paragraph ext doc text style <> OutOfFuel.
Proof.
  unfold add_paragraph. destruct (docx_text_error ext text); discriminate.
Qed.

Lemma render_block_settles doc block : render_block ext doc block <> OutOfFuel.
Proof.
  unfold render_block.
  repeat match goal with |- context [if ?b then _ else _] => destruct b end;
    first [ discriminate | apply add_heading_settles
          | apply add_paragraph_settles ].
Qed.

Lemma render_blocks_settles blocks : forall doc,
  render_blocks ext doc blocks <> OutOfFuel.
Proof.
  induction blocks as [|b blocks IH]; intros doc; simpl; [discriminate|].
  apply and_then_settles; [apply render_block_settles | intros d; apply IH].
Qed.

Lemma render_chunks_settles entries : forall doc,
  render_chunks ext doc entries <> OutOfFuel.
Proof.
  induction entries as [|[idx text] entries IH]; intros doc; simpl;
    [discriminate|].
  apply and_then_settles; [|intros d; apply IH].
  apply and_then_settles;
    [apply add_heading_settles | intros d; apply render_blocks_settles].
Qed.

Lemma compose_document_settles structured_texts :
  compose_document ext structured_texts <> OutOfFuel.
Proof.
  unfold compose_document.
  apply and_then_settles;
    [apply add_heading_settles | intros d; apply render_chunks_settles].
Qed.

Lemma total_main input_path recipient_path :
  total (main ext SMTP_SERVER SMTP_PORT input_path recipient_path).
Proof.
  unfold main.
  repeat first
    [ apply total_bind; [|intros ?] | apply total_print | apply total_ret ].
  - unfold read_document.
    repeat match goal with |- total (if ?b then _ else _) => destruct b end;
      repeat first [ apply total_bind; [|intros ?] | apply total_call
                   | apply total_ret | apply total_raise ].
  - intros s. unfold lift, smart_split_text_default, smart_split_text.
    cbv zeta. cbn [fst].
    destruct (Z.leb _ _); [discriminate|].
    destruct (PyList.range _ _ _); discriminate.
  - apply total_for_each_chunk.
  - unfold read_recipients_from_file. apply total_try_except.
    + apply total_bind; [apply total_call | intros lines].
      apply total_bind; [|intros ?; apply total_ret].
      destruct (set_difference _ _); [apply total_ret | apply total_print].
    + intros e. apply total_bind; [apply total_print | intros ?; apply total_ret].
  - intros s. discriminate.
  - intros s. discriminate.
  - intros s. apply compose_document_settles.
  - apply total_try_except.
    + apply total_bind; [apply total_call | intros ?; apply total_print].
    + intros e. apply total_print.
Qed.

(** C7: when the extraction of every chunk returns, the loop of [main]
    returns one output per chunk, in the order of the chunks: output [i] is
    what the extraction of chunk [i] returned, in the state left by the
    extractions before it. *)
Theorem one_output_per_chunk chunks (s : state World) outputs s' :
  extractions ext chunks s outputs s' ->
  for_each_chunk ext chunks [] s = (Ret outputs, s')
  /\ length outputs = length chunks
  /\ (forall i chunk,
        nth_error chunks i = Some chunk ->
        exists si response si',
          extractions ext (firstn i chunks) s (firstn i outputs) si
          /\ extract_use_cases ext chunk 5 si = (Ret response, si')
          /\ nth_error outputs i = Some response).
Proof.
  intros H. split; [|split].
  - exact (for_each_chunk_extractions ext chunks [] s outputs s' H).
  - exact (extractions_length ext chunks s outputs s' H).
  - intros i chunk Hi. exact (extractions_nth ext chunks s outputs s' i chunk H Hi).
Qed.

(** C5: when the extraction of a chunk raises the exhaustion error, the
    outputs collected are those of the chunks before it, [main] stops with
    that error in the very state in which it was raised (so no call is made
    for a later chunk), and no delivery is attempted. *)
Theorem abort_on_exhaustion input_path recipient_path (s : state World)
    before chunk after s0 outputs s1 s2 :
  prelude ext input_path s = (Ret (before ++ chunk :: after), s0) ->
  extractions ext before s0 outputs s1 ->
  extract_use_cases ext chunk 5 s1 = (Raise exhausted, s2) ->
  for_each_chunk ext before [] s0 = (Ret outputs, s1)
  /\ length outputs = length before
  /\ for_each_chunk ext (before ++ chunk :: after) [] s0 = (Raise exhausted, s2)
  /\ main ext SMTP_SERVER SMTP_PORT input_path recipient_path s
     = (Raise exhausted, s2)
  /\ run_script ext SMTP_SERVER SMTP_PORT input_path recipient_path s = (1, s2)
  /\ (exists new,
        trace s2 = trace s1 ++ new
        /\ Forall (eq (prompt_template chunk)) (calls new))
  /\ deliveries (trace s2) = deliveries (trace s).
Proof.
  intros Hpre Hbefore Hraise.
  pose proof (for_each_chunk_extractions ext before [] s0 outputs s1 Hbefore)
    as Hloop. simpl in Hloop.
  assert (Hall : for_each_chunk ext (before ++ chunk :: after) [] s0
                 = (Raise exhausted, s2)).
  { rewrite for_each_chunk_app. unfold bind at 1. rewrite Hloop. simpl.
    unfold bind. now rewrite Hraise. }
  assert (Hmain : main ext SMTP_SERVER SMTP_PORT input_path recipient_path s
                  = (Raise exhausted, s2)).
  { rewrite main_phases. unfold bind at 1. rewrite Hpre.
    unfold bind at 1. now rewrite Hall. }
  split; [exact Hloop|]. split; [eapply extractions_length; eassumption|].
  split; [exact Hall|]. split; [exact Hmain|].
  split; [unfold run_script; now rewrite Hmain|]. split.
  - destruct (extract_use_cases_run ext chunk 5 s1)
      as [errors [_ [[response [w [_ [_ Hrun]]]]|[_ [w Hrun]]]]];
      rewrite Hrun in Hraise; [discriminate|].
    injection Hraise as <-. simpl. eexists. split; [reflexivity|].
    rewrite calls_failures. apply Forall_forall. intros p Hp.
    now apply repeat_spec in Hp.
  - destruct (quiet_prelude ext input_path s) as [n0 [E0 D0]].
    rewrite Hpre in E0. simpl in E0.
    destruct (extractions_quiet ext before s0 outputs s1 Hbefore) as [n1 [E1 D1]].
    destruct (quiet_extract ext chunk 5 s1) as [n2 [E2 D2]].
    rewrite Hraise in E2. simpl in E2.
    rewrite E2, E1, E0, !deliveries_app, D0, D1, D2, !app_nil_r. reflexivity.
Qed.

(** What [send_docx_via_email] does when the document cannot be composed,
    when the session fails, and when it succeeds. *)
Lemma send_not_composed structured_texts recipient_emails sender password
    (s : state World) e :
  compose_document ext structured_texts = Raise e ->
  send_docx_via_email ext SMTP_SERVER SMTP_PORT
    structured_texts recipient_emails sender password s
  = (Raise e, s).
Proof.
  intros H. unfold send_docx_via_email, bind, lift. now rewrite H.
Qed.

Lemma send_failure structured_texts recipient_emails sender password
    (s : state World) doc e w :
  compose_document ext structured_texts = Ret doc ->
  smtp_session ext SMTP_SERVER SMTP_PORT sender password
    (outgoing_message doc recipient_emails sender) (world s)
  = (inl e, w) ->
  send_docx_via_email ext SMTP_SERVER SMTP_PORT
    structured_texts recipient_emails sender password s
  = (Ret tt,
     {| world := w;
        trace := trace s
                 ++ [EvSmtp (outgoing_message doc recipient_emails sender);
                     EvPrint (MsgEmailFailed e)] |}).
Proof.
  intros Hdoc H.
  unfold send_docx_via_email, bind at 1, lift. rewrite Hdoc.
  unfold try_except, bind, call, print, record.
  simpl. fold (outgoing_message doc recipient_emails sender).
  rewrite H. simpl. now rewrite <- app_assoc.
Qed.

Lemma send_success structured_texts recipient_emails sender password
    (s : state World) doc w :
  compose_document ext structured_texts = Ret doc ->
  smtp_session ext SMTP_SERVER SMTP_PORT sender password
    (outgoing_message doc recipient_emails sender) (world s)
  = (inr tt, w) ->
  send_docx_via_email ext SMTP_SERVER SMTP_PORT
    structured_texts recipient_emails sender password s
  = (Ret tt,
     {| world := w;
        trace := trace s
                 ++ [EvSmtp (outgoing_message doc recipient_emails sender);
                     EvPrint (MsgEmailSent (comma_join recipient_emails))] |}).
Proof.
  intros Hdoc H.
  unfold send_docx_via_email, bind at 1, lift. rewrite Hdoc.
  unfold try_except, bind, call, print, record.
  simpl. fold (outgoing_message doc recipient_emails sender).
  rewrite H. simpl. now rewrite <- app_assoc.
Qed.

(** C6, as the code has it: when the mail session fails after every
    extraction has returned and the document has been composed,
    [send_docx_via_email] catches the failure, prints it and returns: the
    failure does not leave the send operation and the delivery is attempted
    once; [main] prints its last message and returns, and the process exits
    with status 0. *)
Theorem delivery_failure_reported input_path recipient_path (s : state World)
    chunks s0 outputs s1 recipients s2 doc e w :
  prelude ext input_path s = (Ret chunks, s0) ->
  extractions ext chunks s0 outputs s1 ->
  read_recipients_from_file ext recipient_path
    (record (EvPrint (MsgText "Reading recipients...")) s1)
  = (Ret recipients, s2) ->
  compose_document ext outputs = Ret doc ->
  smtp_session ext SMTP_SERVER SMTP_PORT
    (getenv ext "EMAIL_USERNAME" (world s2))
    (getenv ext "EMAIL_PASSWORD" (world s2))
    (outgoing_message doc recipients (getenv ext "EMAIL_USERNAME" (world s2)))
    (world s2)
  = (inl e, w) ->
  send_docx_via_email ext SMTP_SERVER SMTP_PORT outputs recipients
    (getenv ext "EMAIL_USERNAME" (world s2))
    (getenv ext "EMAIL_PASSWORD" (world s2))
    (record (EvPrint (MsgText "Sending structured output via email...")) s2)
  = (Ret tt,
     {| world := w;
        trace :=
          trace s2
          ++ [EvPrint (MsgText "Sending structured output via email...");
              EvSmtp (outgoing_message doc recipients
                        (getenv ext "EMAIL_USERNAME" (world s2)));
              EvPrint (MsgEmailFailed e)] |})
  /\ main ext SMTP_SERVER SMTP_PORT input_path recipient_path s
     = (Ret tt,
        {| world := w;
           trace :=
             trace s2
             ++ [EvPrint (MsgText "Sending structured output via email...");
                 EvSmtp (outgoing_message doc recipients
                           (getenv ext "EMAIL_USERNAME" (world s2)));
                 EvPrint (MsgEmailFailed e);
                 done_message] |})
  /\ fst (run_script ext SMTP_SERVER SMTP_PORT input_path recipient_path s) = 0
  /\ deliveries
       (trace (snd (main ext SMTP_SERVER SMTP_PORT input_path recipient_path s)))
     = deliveries (trace s)
       ++ [outgoing_message doc recipients
             (getenv ext "EMAIL_USERNAME" (world s2))].
Proof.
  intros Hpre Hx Hrec Hdoc Hsmtp.
  pose proof (for_each_chunk_extractions ext chunks [] s0 outputs s1 Hx) as Hloop.
  simpl in Hloop.
  set (s3 := record (EvPrint (MsgText "Sending structured output via email...")) s2).
  set (username := getenv ext "EMAIL_USERNAME" (world s2)) in *.
  set (password := getenv ext "EMAIL_PASSWORD" (world s2)) in *.
  assert (Esend : send_docx_via_email ext SMTP_SERVER SMTP_PORT outputs
                    recipients username password s3
                  = (Ret tt,
                     {| world := w;
                        trace := trace s3
                                 ++ [EvSmtp (outgoing_message doc recipients
                                               username);
                                     EvPrint (MsgEmailFailed e)] |}))
    by (apply send_failure; assumption).
  assert (Hmain : main ext SMTP_SERVER SMTP_PORT input_path recipient_path s
                  = (Ret tt,
                     record done_message
                       {| world := w;
                          trace := trace s3
                                   ++ [EvSmtp (outgoing_message doc recipients
                                                 username);
                                       EvPrint (MsgEmailFailed e)] |})).
  { rewrite main_phases.
    rewrite (bind_Ret _ _ _ _ _ Hpre), (bind_Ret _ _ _ _ _ Hloop).
    unfold epilogue.
    rewrite (bind_Ret (print _) _ s1 tt _ eq_refl).
    rewrite (bind_Ret _ _ _ _ _ Hrec).
    rewrite (bind_Ret (print _) _ s2 tt s3 eq_refl).
    rewrite (bind_Ret (os_getenv ext _) _ s3 username s3 eq_refl).
    rewrite (bind_Ret (os_getenv ext _) _ s3 password s3 eq_refl).
    rewrite (bind_Ret _ _ _ _ _ Esend). reflexivity. }
  split; [rewrite Esend; unfold s3, record; simpl; now rewrite <- app_assoc|].
  split; [rewrite Hmain; unfold s3, record; simpl; now rewrite <- !app_assoc|].
  split; [unfold run_script; now rewrite Hmain|].
  rewrite Hmain.
  destruct (quiet_prelude ext input_path s) as [n0 [E0 D0]].
  rewrite Hpre in E0. simpl in E0.
  destruct (extractions_quiet ext chunks s0 outputs s1 Hx) as [n1 [E1 D1]].
  destruct (quiet_read_recipients ext recipient_path
              (record (EvPrint (MsgText "Reading recipients...")) s1))
    as [n2 [E2 D2]].
  rewrite Hrec in E2. simpl in E2.
  unfold s3, record; simpl. rewrite E2, E1, E0.
  rewrite !deliveries_app, D0, D1, D2. simpl. now rewrite !app_nil_r.
Qed.

End OrchestratorClaims.

(** ** Concrete runs *)

Section Runs.
Import PyStr Effects Chunker ExAuto Spec Scripted.

Lemma smart_split_text_long_witness :
  0 < 5 - 3
  /\ 5 - 3 < word_count (of_string " a b   c d e ")
  /\ exists chunks,
       smart_split_text (of_string " a b   c d e ") 5 3 = Ret chunks
       /\ Z.of_nat (length chunks)
          = ceil_div (word_count (of_string " a b   c d e ")) (5 - 3)
       /\ (forall j chunk,
             nth_error chunks j = Some chunk ->
             (S j < length chunks)%nat -> word_count chunk = 5 - 3)
       /\ (forall chunk, In chunk chunks -> 0 < word_count chunk <= 5 - 3)
       /\ concat (map split chunks) = split (of_string " a b   c d e ").
Proof.
  split; [reflexivity|]. split; [reflexivity|].
  apply (smart_split_text_long (of_string " a b   c d e ") 5 3); reflexivity.
Defined.

(** C2 as stated fails when the budget is not positive: with a negative
    budget no chunk is returned and the words are lost, with a zero budget
    [range] raises. *)
Lemma smart_split_text_nonpositive_budget :
  smart_split_text (of_string "a b c") 400 500 = Ret []
  /\ ~ split_long_claim (of_string "a b c") 400 500
  /\ smart_split_text (of_string "a b c") 500 500
     = Raise (ValueError "range() arg 3 must not be zero")
  /\ ~ split_long_claim (of_string "a b c") 500 500.
Proof.
  split; [reflexivity|]. split; [|split; [reflexivity|]].
  - intros H. destruct H as [chunks [E [_ [_ Hwords]]]]; [reflexivity|].
    injection E as <-. discriminate Hwords.
  - intros H. destruct H as [chunks [E _]]; [reflexivity|].
    discriminate E.
Qed.

(** Two failures, then a response: three calls, the response returned. *)
Lemma extract_use_cases_retries_witness :
  1 <= 5
  /\ first_success (ext mail_ok) (of_string "chunk")
       (world (short_run [ko; ko; ok "use cases"])) 2 (of_string "use cases")
  /\ fst (extract_use_cases (ext mail_ok) (of_string "chunk") 5
            (short_run [ko; ko; ok "use cases"]))
     = Ret (of_string "use cases")
  /\ length (calls (trace (snd (extract_use_cases (ext mail_ok)
                                  (of_string "chunk") 5
                                  (short_run [ko; ko; ok "use cases"])))))
     = 3%nat.
Proof.
  assert (Hmax : 1 <= 5) by lia.
  assert (Hfirst : first_success (ext mail_ok) (of_string "chunk")
                     (world (short_run [ko; ko; ok "use cases"])) 2
                     (of_string "use cases")).
  { split; [|reflexivity].
    intros [|[|j]] Hj; [exact I | exact I | lia]. }
  destruct (extract_use_cases_retries (ext mail_ok) (of_string "chunk") 5
              (short_run [ko; ko; ok "use cases"]) Hmax)
    as [new [Htrace [_ [Hsucc _]]]].
  destruct (Hsucc 2%nat (of_string "use cases") ltac:(lia) Hfirst) as [Hret Hcalls].
  split; [exact Hmax|]. split; [exact Hfirst|]. split; [exact Hret|].
  rewrite Htrace. simpl. exact Hcalls.
Defined.

Lemma exhaustion_total_wait_witness :
  1 <= 5
  /\ (forall j, Z.of_nat j < 5 ->
        failed (attempt_result (ext mail_ok) (of_string "chunk")
                  (world (short_run [])) j))
  /\ fst (extract_use_cases (ext mail_ok) (of_string "chunk") 5 (short_run []))
     = Raise exhausted
  /\ exists front,
       trace (snd (extract_use_cases (ext mail_ok) (of_string "chunk") 5
                     (short_run [])))
       = trace (short_run []) ++ front ++ [EvSleep (2 ^ (5 - 1))]
       /\ Z.of_nat (length (calls (front ++ [EvSleep (2 ^ (5 - 1))]))) = 5
       /\ sleeps (front ++ [EvSleep (2 ^ (5 - 1))])
          = map (fun k => 2 ^ Z.of_nat k) (seq 0 (Z.to_nat 5))
       /\ total_wait (front ++ [EvSleep (2 ^ (5 - 1))]) = 2 ^ 5 - 1.
Proof.
  assert (Hmax : 1 <= 5) by lia.
  assert (Hall : forall j, Z.of_nat j < 5 ->
            failed (attempt_result (ext mail_ok) (of_string "chunk")
                      (world (short_run [])) j)).
  { intros [|[|[|[|[|j]]]]] Hj; [exact I | exact I | exact I | exact I | exact I | lia]. }
  split; [exact Hmax|]. split; [exact Hall|].
  exact (exhaustion_total_wait (ext mail_ok) (of_string "chunk") 5
           (short_run []) Hmax Hall).
Defined.

Lemma extract_use_cases_no_attempt_witness :
  0 <= 0
  /\ extract_use_cases (ext mail_ok) (of_string "chunk") 0
       (short_run [ok "use cases"])
     = (Raise exhausted, short_run [ok "use cases"]).
Proof.
  split; [lia|].
  apply (extract_use_cases_no_attempt (ext mail_ok) (of_string "chunk") 0
           (short_run [ok "use cases"])).
  lia.
Defined.

Lemma one_output_per_chunk_witness :
  extractions (ext mail_ok) [of_string "first chunk"; of_string "second chunk"]
    (short_run [ko; ok "one"; ok "two"])
    [of_string "one"; of_string "two"]
    (snd (for_each_chunk (ext mail_ok)
            [of_string "first chunk"; of_string "second chunk"] []
            (short_run [ko; ok "one"; ok "two"])))
  /\ fst (for_each_chunk (ext mail_ok)
            [of_string "first chunk"; of_string "second chunk"] []
            (short_run [ko; ok "one"; ok "two"]))
     = Ret [of_string "one"; of_string "two"].
Proof.
  assert (H : extractions (ext mail_ok)
                [of_string "first chunk"; of_string "second chunk"]
                (short_run [ko; ok "one"; ok "two"])
                [of_string "one"; of_string "two"]
                (snd (for_each_chunk (ext mail_ok)
                        [of_string "first chunk"; of_string "second chunk"] []
                        (short_run [ko; ok "one"; ok "two"])))).
  { apply extractions_cons
      with (s1 := snd (extract_use_cases (ext mail_ok) (of_string "first chunk") 5
                         (short_run [ko; ok "one"; ok "two"])));
      [reflexivity|].
    apply extractions_cons
      with (s1 := snd (for_each_chunk (ext mail_ok)
                         [of_string "first chunk"; of_string "second chunk"] []
                         (short_run [ko; ok "one"; ok "two"])));
      [reflexivity|].
    apply extractions_nil. }
  split; [exact H|].
  destruct (one_output_per_chunk (ext mail_ok) _ _ _ _ H) as [E _].
  now rewrite E.
Defined.

(** Three chunks, the second one gives up: one output, no call for the
    third chunk, no delivery, exit status 1. *)
Lemma abort_on_exhaustion_witness :
  prelude (ext mail_ok) input_path abort_run = (Ret long_chunks, abort_s0)
  /\ length long_chunks = 3%nat
  /\ extractions (ext mail_ok) (firstn 1 long_chunks) abort_s0
       [of_string "first use cases"] abort_s1
  /\ extract_use_cases (ext mail_ok) (nth 1 long_chunks []) 5 abort_s1
     = (Raise exhausted, abort_s2)
  /\ run_script (ext mail_ok) None 587 input_path recipient_path abort_run
     = (1, abort_s2)
  /\ length (calls (trace abort_s2)) = 6%nat
  /\ deliveries (trace abort_s2) = [].
Proof.
  assert (H0 : prelude (ext mail_ok) input_path abort_run
               = (Ret (firstn 1 long_chunks
                       ++ nth 1 long_chunks [] :: skipn 2 long_chunks),
                  abort_s0)) by (vm_compute; reflexivity).
  assert (H1 : extractions (ext mail_ok) (firstn 1 long_chunks) abort_s0
                 [of_string "first use cases"] abort_s1).
  { apply extractions_cons with (s1 := abort_s1);
      [vm_compute; reflexivity | apply extractions_nil]. }
  assert (H2 : extract_use_cases (ext mail_ok) (nth 1 long_chunks []) 5 abort_s1
               = (Raise exhausted, abort_s2)) by (vm_compute; reflexivity).
  destruct (abort_on_exhaustion (ext mail_ok) None 587 input_path recipient_path
              abort_run _ _ _ _ _ _ _ H0 H1 H2)
    as [_ [_ [_ [_ [Hrun [_ Hdel]]]]]].
  split; [vm_compute; reflexivity|]. split; [vm_compute; reflexivity|].
  split; [exact H1|]. split; [exact H2|]. split; [exact Hrun|].
  split; [vm_compute; reflexivity | exact Hdel].
Defined.

Lemma mail_refused_down : mail_down (ext mail_refused) None 587.
Proof. intros user password msg w. exact I. Qed.

(** The mail server refuses the session: the failure is printed, the last
    message too, and the exit status is 0. *)
Lemma delivery_failure_reported_witness :
  prelude (ext mail_refused) input_path refused_run
  = (Ret [of_string "the clerk opens a ticket"], refused_s0)
  /\ extractions (ext mail_refused) [of_string "the clerk opens a ticket"]
       refused_s0 [of_string "use cases"] refused_s1
  /\ read_recipients_from_file (ext mail_refused) recipient_path
       (record (EvPrint (MsgText "Reading recipients...")) refused_s1)
     = (Ret (map of_string ["a@b.com"; "c@d.org"]%string), refused_s2)
  /\ compose_document (ext mail_refused) [of_string "use cases"]
     = Ret refused_doc
  /\ fst (smtp_session (ext mail_refused) None 587
            (getenv (ext mail_refused) "EMAIL_USERNAME" (world refused_s2))
            (getenv (ext mail_refused) "EMAIL_PASSWORD" (world refused_s2))
            (outgoing_message refused_doc
               (map of_string ["a@b.com"; "c@d.org"]%string)
               (getenv (ext mail_refused) "EMAIL_USERNAME" (world refused_s2)))
            (world refused_s2))
     = inl unavailable
  /\ fst (run_script (ext mail_refused) None 587 input_path recipient_path
            refused_run) = 0
  /\ fst (main (ext mail_refused) None 587 input_path recipient_path
            refused_run) = Ret tt.
Proof.
  assert (H0 : prelude (ext mail_refused) input_path refused_run
               = (Ret [of_string "the clerk opens a ticket"], refused_s0))
    by reflexivity.
  assert (H1 : extractions (ext mail_refused)
                 [of_string "the clerk opens a ticket"] refused_s0
                 [of_string "use cases"] refused_s1).
  { apply extractions_cons with (s1 := refused_s1);
      [reflexivity | apply extractions_nil]. }
  assert (H2 : read_recipients_from_file (ext mail_refused) recipient_path
                 (record (EvPrint (MsgText "Reading recipients...")) refused_s1)
               = (Ret (map of_string ["a@b.com"; "c@d.org"]%string), refused_s2))
    by reflexivity.
  assert (H3 : compose_document (ext mail_refused) [of_string "use cases"]
               = Ret refused_doc) by reflexivity.
  destruct (delivery_failure_reported (ext mail_refused) None 587 input_path
              recipient_path refused_run _ _ _ _ _ _ refused_doc unavailable
              (world refused_s2) H0 H1 H2 H3 eq_refl)
    as [_ [Hmain [Hrun _]]].
  split; [exact H0|]. split; [exact H1|]. split; [exact H2|].
  split; [exact H3|]. split; [reflexivity|]. split; [exact Hrun|].
  now rewrite Hmain.
Defined.

(** C6 as stated fails: the mail server refuses the session, the failure is
    printed, and yet [main] returns and the exit status is 0. *)
Lemma delivery_failure_not_fatal :
  fst (run_script (ext mail_refused) None 587 input_path recipient_path
         refused_run) = 0
  /\ fst (main (ext mail_refused) None 587 input_path recipient_path
            refused_run) = Ret tt
  /\ In (EvPrint (MsgEmailFailed unavailable))
        (trace (snd (main (ext mail_refused) None 587 input_path recipient_path
                       refused_run)))
  /\ ~ delivery_failure_fatal (ext mail_refused) None 587 input_path
         recipient_path refused_run.
Proof.
  split; [reflexivity|]. split; [reflexivity|]. split.
  - vm_compute. repeat (first [left; reflexivity | right]).
  - intros H. destruct (H mail_refused_down) as [Hexit _].
    apply Hexit. reflexivity.
Qed.

Lemma recipients_validated_witness :
  read_lines (ext mail_ok) recipient_path (world (short_run []))
  = (inr recipient_lines, world (short_run []))
  /\ fst (read_recipients_from_file (ext mail_ok) recipient_path (short_run []))
     = Ret (map of_string ["a@b.com"; "c@d.org"]%string)
  /\ trace (snd (read_recipients_from_file (ext mail_ok) recipient_path
                   (short_run [])))
     = [EvReadRecipients recipient_path;
        EvPrint (MsgInvalidEmails [of_string "not-an-email"])].
Proof.
  assert (H : read_lines (ext mail_ok) recipient_path (world (short_run []))
              = (inr recipient_lines, world (short_run []))) by reflexivity.
  destruct (recipients_validated (ext mail_ok) recipient_path (short_run [])
              recipient_lines _ H) as [warnings [E _]].
  split; [exact H|]. rewrite E. simpl fst. simpl snd.
  split; [reflexivity|].
  injection E as E. vm_compute in E. vm_compute. congruence.
Defined.

End Runs.

(** * Further properties of the script *)

(** ** Reading the document *)

Section ReadDocument.
Import PyStr Effects ExAuto Spec Observations.

Context {World : Type} (ext : Externals World).

Lemma str_eqb_neq a b : a <> b -> str_eqb a b = false.
Proof.
  intros H. unfold str_eqb. destruct (list_eq_dec N.eq_dec a b); congruence.
Qed.

Lemma fold_left_newlines parts : forall acc,
  fold_left (fun text part => text ++ part ++ [chr_newline]) parts acc
  = acc ++ newline_terminated parts.
Proof.
  unfold newline_terminated.
  induction parts as [|p parts IH]; intros acc; simpl.
  - now rewrite app_nil_r.
  - rewrite IH, <- !app_assoc. reflexivity.
Qed.

(** X1: a file whose extension is none of [.pdf], [.docx], [.txt] makes
    [read_document] raise [ValueError]; nothing is read and the state is
    untouched. *)
Theorem read_document_unsupported file_path (s : state World) :
  splitext_lower ext file_path <> of_string ".pdf" ->
  splitext_lower ext file_path <> of_string ".docx" ->
  splitext_lower ext file_path <> of_string ".txt" ->
  read_document ext file_path s
  = (Raise (ValueError "Unsupported file format."), s).
Proof.
  intros H1 H2 H3. unfold read_document.
  now rewrite (str_eqb_neq _ _ H1), (str_eqb_neq _ _ H2), (str_eqb_neq _ _ H3).
Qed.

(** X2: for a [.pdf] or a [.docx] file that can be read, [read_document]
    returns the texts of its pages (or paragraphs) in order, each followed
    by a newline; a file with no page gives the empty text. *)
Theorem read_document_parts file_path (s : state World) parts w :
  (splitext_lower ext file_path = of_string ".pdf"
   /\ pdf_pages_text ext file_path (world s) = (inr parts, w))
  \/ (splitext_lower ext file_path = of_string ".docx"
      /\ docx_paragraphs_text ext file_path (world s) = (inr parts, w)) ->
  read_document ext file_path s
  = (Ret (newline_terminated parts),
     {| world := w; trace := trace s ++ [EvReadDocument file_path] |})
  /\ (parts = [] -> newline_terminated parts = []).
Proof.
  intros H. split; [|intros ->; reflexivity].
  unfold read_document, bind, call, ret.
  destruct H as [[E R]|[E R]]; rewrite E; simpl; rewrite R; simpl;
    now rewrite fold_left_newlines.
Qed.

(** X3: a [.txt] file is returned as it is read, character for character,
    and a failure to read it is raised as it is. *)
Theorem read_document_txt file_path (s : state World) r w :
  splitext_lower ext file_path = of_string ".txt" ->
  read_text_file ext file_path (world s) = (r, w) ->
  read_document ext file_path s
  = (match r with inr text => Ret text | inl e => Raise e end,
     {| world := w; trace := trace s ++ [EvReadDocument file_path] |}).
Proof.
  intros E R. unfold read_document, call. rewrite E. simpl. rewrite R.
  now destruct r.
Qed.

(** What [read_document] adds to the trace: at most the reading itself. *)
Lemma read_document_trace file_path (s : state World) :
  trace (snd (read_document ext file_path s)) = trace s
  \/ trace (snd (read_document ext file_path s))
     = trace s ++ [EvReadDocument file_path].
Proof.
  unfold read_document, bind, call, ret, raise.
  repeat match goal with |- context [if ?b then _ else _] => destruct b end;
    simpl.
  - right. now destruct (pdf_pages_text ext file_path (world s)) as [[e|p] w].
  - right.
    now destruct (docx_paragraphs_text ext file_path (world s)) as [[e|p] w].
  - right. now destruct (read_text_file ext file_path (world s)) as [[e|p] w].
  - now left.
Qed.

End ReadDocument.

(** ** The Chunker outside the claims *)

Section ChunkerMore.
Import PyStr PyList Chunker Spec.

(** X4: what [smart_split_text] does with a budget that is not positive: a
    negative budget gives no chunk at all, whatever the text; a zero budget
    gives a text without words back as the single chunk and makes [range]
    raise [ValueError] on any other text. *)
Theorem smart_split_text_nonpositive text mmt bt :
  mmt - bt <= 0 ->
  smart_split_text text mmt bt
  = if mmt - bt <? 0 then Ret []
    else if word_count text =? 0 then Ret [text]
    else Raise (ValueError "range() arg 3 must not be zero").
Proof.
  intros H. assert (0 <= word_count text) by (unfold word_count; lia).
  destruct (Z.ltb_spec (mmt - bt) 0).
  - now apply smart_split_text_negative_budget.
  - destruct (Z.eqb_spec (word_count text) 0) as [E|E].
    + unfold smart_split_text. fold (word_count text). rewrite E.
      destruct (Z.leb_spec 0 (mmt - bt)); [reflexivity | lia].
    + apply smart_split_text_zero_budget; lia.
Qed.

(** X5: with a positive budget, every chunk of a text longer than the budget
    is its own words joined by single spaces (the spacing of the text is not
    kept), and chunking a chunk again with the same parameters returns it
    alone. *)
Theorem chunks_normalised text mmt bt chunks :
  0 < mmt - bt ->
  mmt - bt < word_count text ->
  smart_split_text text mmt bt = Ret chunks ->
  forall chunk, In chunk chunks ->
    join [chr_space] (split chunk) = chunk
    /\ smart_split_text chunk mmt bt = Ret [chunk].
Proof.
  intros Hm Hlong E chunk Hin.
  rewrite smart_split_text_groups in E by assumption.
  injection E as <-. apply in_map_iff in Hin as [g [<- Hg]].
  assert (Hw : Forall is_word g).
  { apply groups_words with (words := split text) (m := mmt - bt);
      [apply split_words | assumption]. }
  rewrite split_join by assumption. split; [reflexivity|].
  unfold smart_split_text. rewrite split_join by assumption.
  apply In_nth_error in Hg as [j Hj].
  destruct (groups_nth _ _ _ _ Hm Hj) as [-> _].
  rewrite length_firstn.
  destruct (Z.leb_spec
              (Z.of_nat (Nat.min (Z.to_nat (mmt - bt))
                           (length (skipn (Z.to_nat (mmt - bt) * j) (split text)))))
              (mmt - bt)); [reflexivity | lia].
Qed.

End ChunkerMore.

(** ** The Extraction Client outside the claims *)

Section ExtractionMore.
Import PyStr Effects ExAuto Spec Observations.

Context {World : Type} (ext : Externals World).

(** The run that ends with the first success at attempt [k]. *)
Lemma extract_at_first_success text max_retries (s : state World) k response :
  Z.of_nat k < max_retries ->
  first_success ext text (world s) k response ->
  exists errors w,
    length errors = k
    /\ extract_use_cases ext text max_retries s
       = (Ret response,
          {| world := w;
             trace :=
               trace s
               ++ failures_trace (prompt_template text) max_retries 0 errors
               ++ [EvTextGeneration (prompt_template text)
                     generation_settings] |}).
Proof.
  intros Hk [Hbefore Hat].
  destruct (extract_use_cases_run ext text max_retries s)
    as [errors [Hfail [[r [w [Hr [Hb Hrun]]]]|[Hlen [w Hrun]]]]].
  - destruct (Nat.lt_trichotomy k (length errors)) as [Hlt|[->|Hgt]].
    + destruct (nth_error errors k) as [e|] eqn:Ek.
      * apply Hfail in Ek. congruence.
      * apply nth_error_None in Ek. lia.
    + exists errors, w. split; [reflexivity|]. congruence.
    + specialize (Hbefore _ Hgt). rewrite Hr in Hbefore. contradiction.
  - destruct (nth_error errors k) as [e|] eqn:Ek.
    + apply Hfail in Ek. congruence.
    + apply nth_error_None in Ek. lia.
Qed.

(** A returned response is that of a first success within the bound. *)
Lemma extract_Ret_first_success text max_retries (s : state World) response :
  fst (extract_use_cases ext text max_retries s) = Ret response ->
  exists k, Z.of_nat k < max_retries
            /\ first_success ext text (world s) k response.
Proof.
  destruct (extract_use_cases_run ext text max_retries s)
    as [errors [Hfail [[r [w [Hr [Hb Hrun]]]]|[Hlen [w Hrun]]]]];
    rewrite Hrun; simpl; intros E; [|discriminate].
  injection E as <-. exists (length errors). split; [assumption|].
  split; [|assumption]. intros j Hj.
  destruct (nth_error errors j) as [e|] eqn:Ej.
  - apply Hfail in Ej. now rewrite Ej.
  - apply nth_error_None in Ej. lia.
Qed.

Lemma failures_trace_events text max_retries errors : forall attempt,
  Forall (extraction_event text)
    (failures_trace (prompt_template text) max_retries attempt errors).
Proof.
  induction errors as [|e errors IH]; intros attempt; simpl; [constructor|].
  repeat constructor. apply IH.
Qed.

(** X6: whatever the service does, one extraction only sends requests for
    the prompt of its own text, with the fixed generation settings, prints
    and waits: it reads no file and sends no mail. *)
Theorem extraction_only_requests text max_retries (s : state World) :
  exists new,
    trace (snd (extract_use_cases ext text max_retries s)) = trace s ++ new
    /\ Forall (extraction_event text) new
    /\ calls new = repeat (prompt_template text) (length (calls new)).
Proof.
  destruct (extract_use_cases_run ext text max_retries s)
    as [errors [_ [[r [w [_ [_ Hrun]]]]|[_ [w Hrun]]]]];
    rewrite Hrun; simpl; eexists; (split; [reflexivity|]).
  - split.
    + apply Forall_app. split; [apply failures_trace_events|].
      repeat constructor.
    + rewrite calls_app, calls_failures. simpl.
      rewrite length_app, repeat_length. simpl.
      now rewrite Nat.add_1_r, <- repeat_cons.
  - split; [apply failures_trace_events|].
    now rewrite calls_failures, repeat_length.
Qed.

(** X7: when the first attempt to succeed is attempt [k] (counted from 0,
    within the bound), the extraction has waited [k] times, [2 ^ k - 1]
    seconds in all, before it returns. *)
Theorem wait_before_success text max_retries (s : state World) k response :
  Z.of_nat k < max_retries ->
  first_success ext text (world s) k response ->
  exists new,
    trace (snd (extract_use_cases ext text max_retries s)) = trace s ++ new
    /\ length (sleeps new) = k
    /\ total_wait new = 2 ^ Z.of_nat k - 1.
Proof.
  intros Hk Hfirst.
  destruct (extract_at_first_success text max_retries s k response Hk Hfirst)
    as [errors [w [Hlen Hrun]]].
  rewrite Hrun. simpl. eexists. split; [reflexivity|].
  unfold total_wait. rewrite sleeps_app, sleeps_failures. cbn [sleeps].
  rewrite app_nil_r, length_map, length_seq, Hlen. split; [reflexivity|].
  rewrite sum_powers by lia. rewrite Z.pow_0_r. lia.
Qed.

(** X8: allowing more attempts never loses a response: if the extraction
    returns a response with [max_retries] attempts allowed, it returns the
    same response, after the same number of calls, with any larger bound. *)
Theorem more_retries_same_response text max_retries more (s : state World)
    response :
  fst (extract_use_cases ext text max_retries s) = Ret response ->
  max_retries <= more ->
  fst (extract_use_cases ext text more s) = Ret response
  /\ length (calls (trace (snd (extract_use_cases ext text more s))))
     = length (calls (trace (snd (extract_use_cases ext text max_retries s)))).
Proof.
  intros Hret Hle.
  destruct (extract_Ret_first_success text max_retries s response Hret)
    as [k [Hk Hfirst]].
  destruct (extract_at_first_success text max_retries s k response Hk Hfirst)
    as [e1 [w1 [L1 R1]]].
  destruct (extract_at_first_success text more s k response ltac:(lia) Hfirst)
    as [e2 [w2 [L2 R2]]].
  rewrite R1, R2. simpl. split; [reflexivity|].
  rewrite !calls_app, !calls_failures, !length_app, !repeat_length. lia.
Qed.

(** What one extraction adds: at most [max_retries] calls and less than
    [2 ^ max_retries] seconds of waiting. *)
Lemma extract_bounds text max_retries (s : state World) :
  0 <= max_retries ->
  exists new,
    trace (snd (extract_use_cases ext text max_retries s)) = trace s ++ new
    /\ Z.of_nat (length (calls new)) <= max_retries
    /\ total_wait new <= 2 ^ max_retries - 1.
Proof.
  intros Hmax.
  destruct (extract_use_cases_run ext text max_retries s)
    as [errors [_ [[r [w [_ [Hb Hrun]]]]|[Hlen [w Hrun]]]]];
    rewrite Hrun; simpl; eexists; (split; [reflexivity|]); unfold total_wait.
  - rewrite calls_app, calls_failures, length_app, repeat_length.
    rewrite sleeps_app, sleeps_failures. cbn [sleeps calls length].
    rewrite app_nil_r.
    rewrite sum_powers, Z.pow_0_r by lia. split; [lia|].
    assert (2 ^ Z.of_nat (length errors) <= 2 ^ max_retries)
      by (apply Z.pow_le_mono_r; lia).
    lia.
  - rewrite calls_failures, repeat_length, sleeps_failures.
    rewrite sum_powers, Z.pow_0_r by lia. split; [lia|].
    rewrite Hlen, Z2Nat.id by lia. lia.
Qed.

(** X9: the loop of [main] makes at most 5 service calls and waits at most
    31 seconds per chunk, whether it returns or stops on an error. *)
Theorem loop_bounds chunks : forall acc (s : state World),
  exists new,
    trace (snd (for_each_chunk ext chunks acc s)) = trace s ++ new
    /\ Z.of_nat (length (calls new)) <= 5 * Z.of_nat (length chunks)
    /\ total_wait new <= 31 * Z.of_nat (length chunks).
Proof.
  induction chunks as [|chunk rest IH]; intros acc s.
  - exists []. simpl. rewrite app_nil_r. repeat split; reflexivity || lia.
  - simpl for_each_chunk. unfold bind.
    destruct (extract_bounds chunk 5 s ltac:(lia)) as [n1 [E1 [C1 W1]]].
    change (2 ^ 5 - 1) with 31 in W1.
    destruct (extract_use_cases ext chunk 5 s) as [[r|e|] s1]; simpl in E1.
    + destruct (IH (acc ++ [r]) s1) as [n2 [E2 [C2 W2]]].
      exists (n1 ++ n2). rewrite E2, E1, app_assoc.
      split; [reflexivity|]. unfold total_wait in *.
      rewrite calls_app, sleeps_app, length_app, fold_right_app.
      simpl length.
      assert (Hsum : forall l z, fold_right Z.add z l
                                 = fold_right Z.add 0 l + z).
      { induction l as [|x l IHl]; intros z; simpl; [lia|].
        rewrite IHl. lia. }
      rewrite Hsum. lia.
    + exists n1. simpl. split; [assumption|]. simpl length. lia.
    + exists n1. simpl. split; [assumption|]. simpl length. lia.
Qed.

End ExtractionMore.

(** ** E-mail addresses and recipients outside the claims *)

Section RecipientsMore.
Import PyStr Regex Email Effects ExAuto Spec Observations.

Lemma count_occ_class (p : char -> bool) c l :
  p c = false -> Forall (fun x => p x = true) l ->
  count_occ N.eq_dec l c = 0%nat.
Proof.
  intros Hc H. induction H as [|x l Hx _ IH]; [reflexivity|].
  simpl. destruct (N.eq_dec x c) as [->|_]; [congruence | exact IH].
Qed.

(** X10: an accepted address has exactly one [@] and at least six
    characters. *)
Theorem valid_email_one_at e :
  is_valid_email e = true ->
  count_occ N.eq_dec e 64%N = 1%nat /\ (6 <= length e)%nat.
Proof.
  intros H. apply is_valid_email_shape in H.
  destruct H as [lp [dp [tp [tail [-> [Hl [Fl [Hd [Fd [Ht [Ft Htail]]]]]]]]]]].
  split.
  - rewrite !count_occ_app.
    rewrite (count_occ_class local_char 64%N lp eq_refl Fl).
    rewrite (count_occ_class domain_char 64%N dp eq_refl Fd).
    rewrite (count_occ_class alpha 64%N tp eq_refl Ft).
    destruct Htail as [-> | ->]; reflexivity.
  - rewrite !length_app. simpl.
    destruct lp; [congruence|]. destruct dp; [congruence|]. simpl. lia.
Qed.

Lemma class_not_newline (p : char -> bool) l :
  p chr_newline = false -> Forall (fun x => p x = true) l ->
  ~ In chr_newline l.
Proof.
  intros Hc H Hin. rewrite Forall_forall in H. apply H in Hin. congruence.
Qed.

(** X11: [$] also matches before a final newline: an accepted address that
    holds no newline is still accepted with one newline added after it. *)
Theorem valid_email_final_newline e :
  is_valid_email e = true ->
  ~ In chr_newline e ->
  is_valid_email (e ++ [chr_newline]) = true.
Proof.
  intros H Hnl. apply is_valid_email_shape in H. apply is_valid_email_shape.
  destruct H as [lp [dp [tp [tail [-> [Hl [Fl [Hd [Fd [Ht [Ft Htail]]]]]]]]]]].
  destruct Htail as [-> | ->].
  - exists lp, dp, tp, [chr_newline].
    split; [rewrite app_nil_r, <- !app_assoc; reflexivity|].
    repeat split; try assumption. now right.
  - exfalso. apply Hnl. rewrite !in_app_iff. do 5 right. now left.
Qed.

(** *** Stripped strings *)

Lemma lstrip_head s c r : lstrip s = c :: r -> isspace c = false.
Proof.
  induction s as [|x s IH]; simpl; [discriminate|].
  destruct (isspace x) eqn:Ex; [exact IH|].
  intros E. injection E as <- _. exact Ex.
Qed.

Lemma lstrip_id c r : isspace c = false -> lstrip (c :: r) = c :: r.
Proof. intros H. simpl. now rewrite H. Qed.

Lemma lstrip_snoc u c :
  isspace c = false -> exists v, lstrip (u ++ [c]) = v ++ [c].
Proof.
  intros Hc. induction u as [|x u IH]; simpl.
  - rewrite Hc. now exists [].
  - destruct (isspace x); [exact IH | now exists (x :: u)].
Qed.

(** A stripped string is empty or starts and ends with characters that are
    not white space. *)
Lemma strip_ends s :
  strip s = []
  \/ exists c1 mid c2,
       (strip s = [c1] /\ mid = [] /\ c2 = c1 \/ strip s = c1 :: mid ++ [c2])
       /\ isspace c1 = false /\ isspace c2 = false.
Proof.
  unfold strip, rstrip.
  destruct (lstrip s) as [|c t] eqn:Et; [now left|].
  pose proof (lstrip_head _ _ _ Et) as Hc.
  simpl rev. destruct (lstrip_snoc (rev t) c Hc) as [v Hv]. rewrite Hv.
  rewrite rev_app_distr. simpl. right.
  destruct (rev v) as [|d w] eqn:Ev.
  - exists c, [], c. split; [left; now repeat split | now split].
  - assert (Hlast : exists mid c2, d :: w = mid ++ [c2]).
    { destruct (exists_last (l := d :: w) ltac:(discriminate)) as [m [x Hx]].
      now exists m, x. }
    destruct Hlast as [mid [c2 Hmid]].
    exists c, mid, c2. rewrite Hmid. split; [now right|]. split; [assumption|].
    assert (Hrev : v = rev (mid ++ [c2])).
    { rewrite <- Hmid, <- Ev. now rewrite rev_involutive. }
    rewrite rev_app_distr in Hrev. simpl in Hrev. subst v.
    simpl in Hv. destruct (rev t) as [|y u] eqn:Erev; simpl in Hv.
    + rewrite Hc in Hv. destruct (rev mid); discriminate.
    + eapply lstrip_head.
      change (lstrip ((y :: u) ++ [c]) = c2 :: rev mid ++ [c]) in Hv.
      exact Hv.
Qed.

Lemma rstrip_id l c : isspace c = false -> rstrip (l ++ [c]) = l ++ [c].
Proof.
  intros H. unfold rstrip. rewrite rev_app_distr. simpl. rewrite H. simpl.
  now rewrite rev_involutive.
Qed.

Lemma strip_idempotent s : strip (strip s) = strip s.
Proof.
  destruct (strip_ends s) as [E|[c1 [mid [c2 [[[E _]|E] [H1 H2]]]]]];
    rewrite E.
  - reflexivity.
  - unfold strip. rewrite lstrip_id by assumption.
    now apply (rstrip_id [] c1).
  - unfold strip. rewrite lstrip_id by assumption.
    now apply (rstrip_id (c1 :: mid) c2).
Qed.

(** The characters of an address are not white space. *)
Lemma local_char_not_space c : local_char c = true -> isspace c = false.
Proof.
  unfold local_char, domain_char, alpha, lower, upper, digit, isspace, in_range.
  rewrite !orb_true_iff, !andb_true_iff, !N.leb_le, !N.eqb_eq. intros H.
  repeat (apply orb_false_iff; split);
    try (apply andb_false_iff; rewrite !N.leb_gt; lia);
    try (apply N.eqb_neq; lia).
Qed.

Lemma domain_char_not_space c : domain_char c = true -> isspace c = false.
Proof.
  unfold local_char, domain_char, alpha, lower, upper, digit, isspace, in_range.
  rewrite !orb_true_iff, !andb_true_iff, !N.leb_le, !N.eqb_eq. intros H.
  repeat (apply orb_false_iff; split);
    try (apply andb_false_iff; rewrite !N.leb_gt; lia);
    try (apply N.eqb_neq; lia).
Qed.

Lemma alpha_not_space c : alpha c = true -> isspace c = false.
Proof.
  unfold local_char, domain_char, alpha, lower, upper, digit, isspace, in_range.
  rewrite !orb_true_iff, !andb_true_iff, !N.leb_le. intros H.
  repeat (apply orb_false_iff; split);
    try (apply andb_false_iff; rewrite !N.leb_gt; lia);
    try (apply N.eqb_neq; lia).
Qed.

Context {World : Type} (ext : Externals World).

Lemma kept_settled lines : Forall settled (kept lines).
Proof.
  apply Forall_forall. intros r Hr. unfold kept in Hr.
  apply filter_In in Hr as [Hin Hv]. apply in_map_iff in Hin as [line [<- Hl]].
  apply filter_In in Hl as [_ Hne].
  split; [assumption|]. split; [apply strip_idempotent|].
  now destruct (strip line).
Qed.

Lemma filter_all {A} (f : A -> bool) l :
  Forall (fun x => f x = true) l -> filter f l = l.
Proof.
  induction 1 as [|x l Hx _ IH]; [reflexivity|]. simpl. now rewrite Hx, IH.
Qed.

Lemma filter_none {A} (f : A -> bool) l :
  Forall (fun x => f x = false) l -> filter f l = [].
Proof.
  induction 1 as [|x l Hx _ IH]; [reflexivity|]. simpl. now rewrite Hx, IH.
Qed.

(** What the function returns for a readable file. *)
Lemma read_recipients_readable path (s : state World) lines w :
  read_lines ext path (world s) = (inr lines, w) ->
  fst (read_recipients_from_file ext path s) = Ret (kept lines)
  /\ (dropped lines = [] ->
      read_recipients_from_file ext path s
      = (Ret (kept lines),
         {| world := w; trace := trace s ++ [EvReadRecipients path] |})).
Proof.
  intros H.
  unfold read_recipients_from_file, try_except, bind, call, print, ret, record.
  simpl. rewrite H. simpl.
  set (recipient_emails := map strip (filter (fun l => truthy (strip l)) lines)).
  fold recipient_emails.
  destruct (set_difference recipient_emails
              (filter is_valid_email recipient_emails)) as [|x l] eqn:E;
    simpl.
  - split; [reflexivity | intros _; reflexivity].
  - split; [reflexivity|]. intros Hd. exfalso.
    assert (Hx : In x (dropped lines)).
    { apply (set_difference_filter is_valid_email recipient_emails x).
      rewrite E. now left. }
    rewrite Hd in Hx. contradiction.
Qed.

Lemma read_recipients_settled path (s : state World) recipients s1 :
  read_recipients_from_file ext path s = (Ret recipients, s1) ->
  Forall settled recipients.
Proof.
  intros H. destruct (read_lines ext path (world s)) as [[e|lines] w] eqn:R.
  - rewrite (read_recipients_unreadable ext path s e w R) in H.
    injection H as <- _. constructor.
  - destruct (read_recipients_readable path s lines w R) as [E _].
    rewrite H in E. injection E as ->. apply kept_settled.
Qed.

(** X22: a recipients file that cannot be read is not fatal: the function
    prints the error and returns the empty list; indeed it returns a list in
    every state, readable file or not. *)
Theorem recipients_file_unreadable path (s : state World) e w :
  read_lines ext path (world s) = (inl e, w) ->
  read_recipients_from_file ext path s
  = (Ret [],
     {| world := w;
        trace := trace s ++ [EvReadRecipients path;
                             EvPrint (MsgRecipientsError e)] |})
  /\ (forall s0 : state World,
        exists recipients s',
          read_recipients_from_file ext path s0 = (Ret recipients, s')).
Proof.
  intros H. split; [now apply read_recipients_unreadable|].
  intros s0. apply read_recipients_returns.
Qed.

(** X12: every recipient that [read_recipients_from_file] returns is
    accepted by the pattern, is not empty and holds no white-space character
    at all (the final newline that [$] tolerates is gone with the
    stripping). *)
Theorem recipients_clean path (s : state World) recipients s1 :
  read_recipients_from_file ext path s = (Ret recipients, s1) ->
  forall r, In r recipients ->
    is_valid_email r = true /\ r <> [] /\ no_space r.
Proof.
  intros H r Hr. pose proof (read_recipients_settled path s recipients s1 H) as F.
  rewrite Forall_forall in F. destruct (F r Hr) as [Hv [Hs Hne]].
  split; [assumption|]. split; [assumption|].
  pose proof Hv as Hshape. apply is_valid_email_shape in Hshape.
  destruct Hshape
    as [lp [dp [tp [tail [E [Hl [Fl [Hd [Fd [Ht [Ft Htail]]]]]]]]]]].
  assert (Hend : tail = []).
  { destruct Htail as [Ht0|Ht0]; [assumption|]. exfalso. subst tail.
    destruct (strip_ends r) as [E0|[c1 [mid [c2 [[[E0 _]|E0] [H1 H2]]]]]];
      rewrite Hs in E0.
    - congruence.
    - rewrite E0 in E.
      replace (lp ++ [64%N] ++ dp ++ [46%N] ++ tp ++ [chr_newline])
        with ((lp ++ [64%N] ++ dp ++ [46%N] ++ tp) ++ [chr_newline]) in E
        by now rewrite <- !app_assoc.
      apply (app_inj_tail [] _ c1 chr_newline) in E as [_ ->]. discriminate.
    - rewrite E0 in E.
      replace (lp ++ [64%N] ++ dp ++ [46%N] ++ tp ++ [chr_newline])
        with ((lp ++ [64%N] ++ dp ++ [46%N] ++ tp) ++ [chr_newline]) in E
        by now rewrite <- !app_assoc.
      apply (app_inj_tail (c1 :: mid) _ c2 chr_newline) in E as [_ ->].
      discriminate. }
  subst tail. rewrite E. unfold no_space.
  repeat (apply Forall_app; split).
  - revert Fl. apply Forall_impl. apply local_char_not_space.
  - now repeat constructor.
  - revert Fd. apply Forall_impl. apply domain_char_not_space.
  - now repeat constructor.
  - revert Ft. apply Forall_impl. apply alpha_not_space.
  - constructor.
Qed.

Lemma stripped_settled_kept lines :
  Forall settled (map strip lines) ->
  kept lines = map strip lines /\ dropped lines = [].
Proof.
  intros H. unfold kept, dropped.
  assert (E1 : filter (fun l => truthy (strip l)) lines = lines).
  { apply filter_all. rewrite Forall_map in H. revert H. apply Forall_impl.
    intros l [_ [_ Hne]]. now destruct (strip l). }
  rewrite E1. split.
  - apply filter_all. revert H. apply Forall_impl. now intros r [-> _].
  - apply filter_none. revert H. apply Forall_impl. now intros r [-> _].
Qed.

(** X13: validation is idempotent: a file written from the recipients
    returned by an earlier call, one per line (each line is a recipient,
    followed by its line terminator or padded with other white space), gives
    the same recipients back, in the same order, and no warning is
    printed. *)
Theorem validation_idempotent path (s : state World) recipients s1
    path' (s' : state World) lines' w' :
  read_recipients_from_file ext path s = (Ret recipients, s1) ->
  read_lines ext path' (world s') = (inr lines', w') ->
  map strip lines' = recipients ->
  read_recipients_from_file ext path' s'
  = (Ret recipients,
     {| world := w'; trace := trace s' ++ [EvReadRecipients path'] |}).
Proof.
  intros H R Hlines.
  pose proof (read_recipients_settled path s _ _ H) as F.
  rewrite <- Hlines in F.
  destruct (stripped_settled_kept lines' F) as [Ek Ed].
  destruct (read_recipients_readable path' s' lines' w' R) as [_ E].
  rewrite Ek, Hlines in E. now apply E.
Qed.

End RecipientsMore.

(** ** The composed document and the delivery outside the claims *)

Section MailerMore.
Import PyStr Effects ExAuto Spec Observations.

Context {World : Type} (ext : Externals World).

Lemma chunk_headings_app d1 d2 :
  chunk_headings (d1 ++ d2) = chunk_headings d1 ++ chunk_headings d2.
Proof.
  induction d1 as [|[text level|text style] d1 IH]; simpl; [reflexivity| |].
  - destruct (level =? 1); simpl; now rewrite IH.
  - exact IH.
Qed.

Lemma and_then_Ret {A B} (o : outcome A) (k : A -> outcome B) b :
  and_then o k = Ret b -> exists a, o = Ret a /\ k a = Ret b.
Proof. destruct o as [a|e|]; simpl; intros H; [eauto | discriminate..]. Qed.

Lemma add_heading_Ret doc text level doc' :
  add_heading ext doc text level = Ret doc' ->
  doc' = doc ++ [Heading text level].
Proof.
  unfold add_heading. destruct (docx_text_error ext text); [discriminate|].
  now intros [= <-].
Qed.

Lemma add_paragraph_Ret doc text style doc' :
  add_paragraph ext doc text style = Ret doc' ->
  doc' = doc ++ [Paragraph text style].
Proof.
  unfold add_paragraph. destruct (docx_text_error ext text); [discriminate|].
  now intros [= <-].
Qed.

(** What one line adds when it is rendered: nothing if it is blank, else
    one element that is not a chunk heading. *)
Lemma render_block_Ret doc block doc' :
  render_block ext doc block = Ret doc' ->
  exists elements,
    doc' = doc ++ elements
    /\ chunk_headings elements = []
    /\ length elements = if rendered block then 1%nat else 0%nat.
Proof.
  unfold render_block, rendered.
  destruct (str_eqb (strip block) []); simpl.
  - intros [= <-]. exists []. now rewrite app_nil_r.
  - destruct (startswith block (of_string "- Use Case Title")).
    + intros H. apply add_heading_Ret in H. eexists. split; [exact H|].
      now split.
    + destruct (startswith block (of_string "- "));
        intros H; apply add_paragraph_Ret in H; eexists;
        (split; [exact H|]); now split.
Qed.

Lemma render_blocks_Ret blocks : forall doc doc',
  render_blocks ext doc blocks = Ret doc' ->
  exists elements,
    doc' = doc ++ elements
    /\ chunk_headings elements = []
    /\ length elements = length (filter rendered blocks).
Proof.
  induction blocks as [|b blocks IH]; intros doc doc' H; simpl in H.
  - injection H as <-. exists []. now rewrite app_nil_r.
  - apply and_then_Ret in H as [d [Hb Hrest]].
    apply render_block_Ret in Hb as [e1 [-> [C1 L1]]].
    apply IH in Hrest as [e2 [-> [C2 L2]]].
    exists (e1 ++ e2). rewrite app_assoc. split; [reflexivity|].
    rewrite chunk_headings_app, C1, C2, length_app, L1, L2. simpl.
    split; [reflexivity|]. now destruct (rendered b).
Qed.

Lemma render_chunk_Ret doc idx structured_text doc' :
  render_chunk ext doc (idx, structured_text) = Ret doc' ->
  exists elements,
    doc' = doc ++ Heading (of_string "Chunk " ++ decimal_of_nat idx) 1
                  :: elements
    /\ chunk_headings elements = []
    /\ length elements
       = length (filter rendered (split_on chr_newline structured_text)).
Proof.
  unfold render_chunk. intros H.
  apply and_then_Ret in H as [d [Hh Hb]].
  apply add_heading_Ret in Hh as ->.
  apply render_blocks_Ret in Hb as [els [-> [C L]]].
  exists els. rewrite <- app_assoc. now repeat split.
Qed.

Lemma render_chunks_Ret texts : forall start doc doc',
  render_chunks ext doc (combine (seq start (length texts)) texts) = Ret doc' ->
  exists elements,
    doc' = doc ++ elements
    /\ chunk_headings elements
       = map (fun idx => of_string "Chunk " ++ decimal_of_nat idx)
             (seq start (length texts)).
Proof.
  induction texts as [|t texts IH]; intros start doc doc' H.
  - injection H as <-. exists []. now rewrite app_nil_r.
  - cbn [length seq combine render_chunks] in H.
    apply and_then_Ret in H as [d [Hc Hrest]].
    apply render_chunk_Ret in Hc as [e1 [-> [C1 _]]].
    apply IH in Hrest as [e2 [-> C2]].
    eexists. rewrite <- app_assoc. split; [reflexivity|].
    cbn [app chunk_headings Z.eqb Pos.eqb length seq map].
    now rewrite chunk_headings_app, C1, C2.
Qed.

(** X14: when python-docx accepts every text and the document is composed,
    it opens with the title, and its level-1 headings are [Chunk 1],
    [Chunk 2], ... , one per structured output and in their order. *)
Theorem document_chunk_headings structured_texts doc :
  compose_document ext structured_texts = Ret doc ->
  hd_error doc = Some (Heading (of_string "Extracted Use Cases") 0)
  /\ chunk_headings doc
     = map (fun idx => of_string "Chunk " ++ decimal_of_nat idx)
           (seq 1 (length structured_texts)).
Proof.
  unfold compose_document, enumerate1. intros H.
  apply and_then_Ret in H as [d [Hh Hc]].
  apply add_heading_Ret in Hh as ->.
  apply render_chunks_Ret in Hc as [els [-> C]].
  split; [reflexivity|]. simpl. exact C.
Qed.

(** X15: when a structured output is rendered, the document gains the chunk
    heading and then exactly one element per line that is not blank; a
    blank line adds nothing. *)
Theorem one_element_per_line doc idx structured_text doc' :
  render_chunk ext doc (idx, structured_text) = Ret doc' ->
  exists elements,
    doc' = doc ++ Heading (of_string "Chunk " ++ decimal_of_nat idx) 1
                  :: elements
    /\ length elements
       = length (filter rendered (split_on chr_newline structured_text)).
Proof.
  intros H. apply render_chunk_Ret in H as [els [E [_ L]]].
  exists els. now split.
Qed.

Lemma strip_nonblank c t : isspace c = false -> strip (c :: t) <> [].
Proof.
  intros Hc. unfold strip. rewrite lstrip_id by assumption.
  unfold rstrip. simpl rev.
  destruct (lstrip_snoc (rev t) c Hc) as [v ->].
  rewrite rev_app_distr. discriminate.
Qed.

Lemma remove_dash_space_other c r :
  c <> 45%N -> remove_dash_space (c :: r) = c :: remove_dash_space r.
Proof.
  intros Hc. destruct r as [|d r]; [reflexivity|].
  simpl. apply N.eqb_neq in Hc. now rewrite Hc.
Qed.

Lemma startswith_prefix p rest : startswith (p ++ rest) p = true.
Proof.
  induction p as [|a p IH]; simpl; [now destruct rest|].
  now rewrite N.eqb_refl, IH.
Qed.

Lemma title_text rest :
  remove_dash_space (of_string "- Use Case Title" ++ rest)
  = of_string "Use Case Title" ++ remove_dash_space rest.
Proof.
  change (of_string "- Use Case Title" ++ rest)
    with (45%N :: 32%N :: of_string "Use Case Title" ++ rest).
  change (remove_dash_space (45%N :: 32%N :: of_string "Use Case Title" ++ rest))
    with (remove_dash_space (of_string "Use Case Title" ++ rest)).
  change (of_string "Use Case Title")
    with [85%N; 115%N; 101%N; 32%N; 67%N; 97%N; 115%N; 101%N; 32%N;
          84%N; 105%N; 116%N; 108%N; 101%N].
  simpl app.
  repeat (rewrite remove_dash_space_other by discriminate; f_equal).
Qed.

(** X16: a line that starts with [- Use Case Title] is handed to
    [add_heading] at level 2 with a text that starts at [Use Case Title]:
    the leading marker is gone, and so is every later [- ] of the line.  The
    heading is added when python-docx accepts that text; otherwise its
    exception is raised and nothing is added. *)
Theorem title_line_heading doc rest :
  render_block ext doc (of_string "- Use Case Title" ++ rest)
  = match docx_text_error ext
            (of_string "Use Case Title" ++ remove_dash_space rest) with
    | None =>
        Ret (doc ++ [Heading (of_string "Use Case Title"
                              ++ remove_dash_space rest) 2])
    | Some e => Raise e
    end.
Proof.
  unfold render_block.
  rewrite (str_eqb_neq (strip (of_string "- Use Case Title" ++ rest)) [])
    by (apply strip_nonblank; reflexivity).
  rewrite startswith_prefix. unfold add_heading. now rewrite title_text.
Qed.

End MailerMore.

(** ** Whole runs outside the claims *)

Section MainMore.
Import PyStr Effects Chunker ExAuto Spec Observations.
Local Open Scope py_scope.

Context {World : Type} (ext : Externals World).
Variable SMTP_SERVER : option str.
Variable SMTP_PORT : Z.

(** What [send_docx_via_email] does once the document is composed,
    whatever the mail server answers. *)
Lemma send_returns structured_texts recipient_emails sender password
    (s : state World) doc :
  compose_document ext structured_texts = Ret doc ->
  exists w report,
    send_docx_via_email ext SMTP_SERVER SMTP_PORT
      structured_texts recipient_emails sender password s
    = (Ret tt,
       {| world := w;
          trace := trace s
                   ++ [EvSmtp (outgoing_message doc recipient_emails sender);
                       EvPrint report] |})
    /\ (smtp_session ext SMTP_SERVER SMTP_PORT sender password
          (outgoing_message doc recipient_emails sender) (world s)
        = (inr tt, w)
        /\ report = MsgEmailSent (comma_join recipient_emails)
        \/ exists e,
             smtp_session ext SMTP_SERVER SMTP_PORT sender password
               (outgoing_message doc recipient_emails sender) (world s)
             = (inl e, w)
             /\ report = MsgEmailFailed e).
Proof.
  intros Hdoc.
  destruct (smtp_session ext SMTP_SERVER SMTP_PORT sender password
              (outgoing_message doc recipient_emails sender)
              (world s)) as [[e|[]] w] eqn:E.
  - exists w, (MsgEmailFailed e).
    split; [now apply send_failure with (doc := doc)|].
    right. now exists e.
  - exists w, (MsgEmailSent (comma_join recipient_emails)).
    split; [now apply send_success with (doc := doc) | now left].
Qed.

(** X17: [send_docx_via_email] never retries and lets no mail failure out:
    once the document is composed it opens exactly one session, prints one
    line (sent or failed) and returns, so its caller cannot tell a failed
    delivery from a successful one.  The document is composed before the
    [try]: when python-docx refuses a text, its exception is raised, no
    session is opened and the state is untouched. *)
Theorem send_one_attempt structured_texts recipient_emails sender password
    (s : state World) :
  match compose_document ext structured_texts with
  | Ret doc =>
      exists w report,
        send_docx_via_email ext SMTP_SERVER SMTP_PORT
          structured_texts recipient_emails sender password s
        = (Ret tt,
           {| world := w;
              trace := trace s
                       ++ [EvSmtp (outgoing_message doc recipient_emails sender);
                           EvPrint report] |})
        /\ (report = MsgEmailSent (comma_join recipient_emails)
            \/ exists e, report = MsgEmailFailed e)
  | Raise e =>
      send_docx_via_email ext SMTP_SERVER SMTP_PORT
        structured_texts recipient_emails sender password s
      = (Raise e, s)
  | OutOfFuel => False
  end.
Proof.
  destruct (compose_document ext structured_texts) as [doc|e|] eqn:Hdoc.
  - destruct (send_returns structured_texts recipient_emails sender password s
                doc Hdoc)
      as [w [report [E [[_ ->]|[e [_ ->]]]]]]; exists w; eexists;
      (split; [exact E|]); [now left | right; now exists e].
  - now apply send_not_composed.
  - now apply (compose_document_settles ext structured_texts).
Qed.

(** [main] once the chunks are extracted and the recipients are read, up to
    the call of [send_docx_via_email]. *)
Lemma main_at_send input_path recipient_path (s : state World)
    chunks s0 outputs s1 recipients s2 :
  prelude ext input_path s = (Ret chunks, s0) ->
  extractions ext chunks s0 outputs s1 ->
  read_recipients_from_file ext recipient_path
    (record (EvPrint (MsgText "Reading recipients...")) s1)
  = (Ret recipients, s2) ->
  main ext SMTP_SERVER SMTP_PORT input_path recipient_path s
  = bind (send_docx_via_email ext SMTP_SERVER SMTP_PORT outputs recipients
            (getenv ext "EMAIL_USERNAME" (world s2))
            (getenv ext "EMAIL_PASSWORD" (world s2)))
         (fun _ =>
            print (MsgText "Done! Structured document sent to the recipients."))
         (record (EvPrint (MsgText "Sending structured output via email...")) s2)
  /\ deliveries (trace s2) = deliveries (trace s).
Proof.
  intros Hpre Hx Hrec.
  pose proof (for_each_chunk_extractions ext chunks [] s0 outputs s1 Hx) as Hloop.
  simpl in Hloop.
  set (s3 := record (EvPrint (MsgText "Sending structured output via email...")) s2).
  split.
  - rewrite main_phases.
    rewrite (bind_Ret _ _ _ _ _ Hpre), (bind_Ret _ _ _ _ _ Hloop).
    unfold epilogue.
    rewrite (bind_Ret (print _) _ s1 tt _ eq_refl).
    rewrite (bind_Ret _ _ _ _ _ Hrec).
    rewrite (bind_Ret (print _) _ s2 tt s3 eq_refl).
    rewrite (bind_Ret (os_getenv ext _) _ s3
               (getenv ext "EMAIL_USERNAME" (world s2)) s3 eq_refl).
    rewrite (bind_Ret (os_getenv ext _) _ s3
               (getenv ext "EMAIL_PASSWORD" (world s2)) s3 eq_refl).
    reflexivity.
  - destruct (quiet_prelude ext input_path s) as [n0 [E0 D0]].
    rewrite Hpre in E0. simpl in E0.
    destruct (extractions_quiet ext chunks s0 outputs s1 Hx) as [n1 [E1 D1]].
    destruct (quiet_read_recipients ext recipient_path
                (record (EvPrint (MsgText "Reading recipients...")) s1))
      as [n2 [E2 D2]].
    rewrite Hrec in E2. simpl in E2.
    rewrite E2, E1, E0, !deliveries_app, D0, D1, D2. simpl.
    now rewrite !app_nil_r.
Qed.

(** X18: a run without failure: when the document is read and chunked,
    every extraction returns, python-docx accepts the outputs, and the mail
    server accepts the session, [main] returns and the process exits with
    status 0 after exactly one delivery, whose attachment is the document
    composed from all the outputs in chunk order and whose [To] header lists
    the validated recipients. *)
Theorem main_success input_path recipient_path (s : state World)
    chunks s0 outputs s1 recipients s2 doc w :
  prelude ext input_path s = (Ret chunks, s0) ->
  extractions ext chunks s0 outputs s1 ->
  read_recipients_from_file ext recipient_path
    (record (EvPrint (MsgText "Reading recipients...")) s1)
  = (Ret recipients, s2) ->
  compose_document ext outputs = Ret doc ->
  smtp_session ext SMTP_SERVER SMTP_PORT
    (getenv ext "EMAIL_USERNAME" (world s2))
    (getenv ext "EMAIL_PASSWORD" (world s2))
    (outgoing_message doc recipients
       (getenv ext "EMAIL_USERNAME" (world s2))) (world s2)
  = (inr tt, w) ->
  exists s',
    run_script ext SMTP_SERVER SMTP_PORT input_path recipient_path s = (0, s')
    /\ world s' = w
    /\ deliveries (trace s')
       = deliveries (trace s)
         ++ [outgoing_message doc recipients
               (getenv ext "EMAIL_USERNAME" (world s2))]
    /\ (exists front,
          trace s' = front ++ [EvPrint (MsgEmailSent (comma_join recipients));
                               done_message])
    /\ length outputs = length chunks.
Proof.
  intros Hpre Hx Hrec Hdoc Hsmtp.
  destruct (main_at_send input_path recipient_path s chunks s0 outputs s1
              recipients s2 Hpre Hx Hrec) as [Hmain Hdel].
  pose proof (send_success ext SMTP_SERVER SMTP_PORT outputs recipients _ _
                (record (EvPrint (MsgText "Sending structured output via email..."))
                   s2) doc w Hdoc Hsmtp) as Esend.
  rewrite (bind_Ret _ _ _ _ _ Esend) in Hmain.
  eexists. split; [unfold run_script; rewrite Hmain; reflexivity|].
  split; [reflexivity|]. unfold print, record. cbn [snd trace]. split; [|split].
  - rewrite !deliveries_app, Hdel. simpl. now rewrite !app_nil_r.
  - eexists (trace s2 ++ [_; _]). rewrite <- !app_assoc. reflexivity.
  - eapply extractions_length; eassumption.
Qed.

(** X19: when validation leaves no recipient (the file cannot be read, or
    none of its lines is an address), [main] goes on all the same: once the
    document is composed it opens one mail session for a message whose [To]
    header is empty, and returns with exit status 0 whatever the server
    answers. *)
Theorem main_sends_to_nobody input_path recipient_path (s : state World)
    chunks s0 outputs s1 s2 doc :
  prelude ext input_path s = (Ret chunks, s0) ->
  extractions ext chunks s0 outputs s1 ->
  read_recipients_from_file ext recipient_path
    (record (EvPrint (MsgText "Reading recipients...")) s1)
  = (Ret [], s2) ->
  compose_document ext outputs = Ret doc ->
  exists s' msg,
    run_script ext SMTP_SERVER SMTP_PORT input_path recipient_path s = (0, s')
    /\ deliveries (trace s') = deliveries (trace s) ++ [msg]
    /\ msg_to msg = []
    /\ attachment msg = doc.
Proof.
  intros Hpre Hx Hrec Hdoc.
  destruct (main_at_send input_path recipient_path s chunks s0 outputs s1
              [] s2 Hpre Hx Hrec) as [Hmain Hdel].
  destruct (send_returns outputs [] (getenv ext "EMAIL_USERNAME" (world s2))
              (getenv ext "EMAIL_PASSWORD" (world s2))
              (record (EvPrint (MsgText "Sending structured output via email..."))
                 s2) doc Hdoc) as [w [report [Esend _]]].
  rewrite (bind_Ret _ _ _ _ _ Esend) in Hmain.
  eexists. eexists. split; [unfold run_script; rewrite Hmain; reflexivity|].
  unfold print, record. cbn [snd trace].
  rewrite !deliveries_app, Hdel. simpl. rewrite !app_nil_r.
  split; [reflexivity|]. split; reflexivity.
Qed.

(** X23: when python-docx refuses a text of the outputs, [main] stops with
    its exception after the extractions and the reading of the recipients:
    no mail session is opened, nothing more is printed, and the process
    exits with status 1. *)
Theorem main_document_refused input_path recipient_path (s : state World)
    chunks s0 outputs s1 recipients s2 e :
  prelude ext input_path s = (Ret chunks, s0) ->
  extractions ext chunks s0 outputs s1 ->
  read_recipients_from_file ext recipient_path
    (record (EvPrint (MsgText "Reading recipients...")) s1)
  = (Ret recipients, s2) ->
  compose_document ext outputs = Raise e ->
  main ext SMTP_SERVER SMTP_PORT input_path recipient_path s
  = (Raise e,
     record (EvPrint (MsgText "Sending structured output via email...")) s2)
  /\ fst (run_script ext SMTP_SERVER SMTP_PORT input_path recipient_path s) = 1
  /\ deliveries
       (trace (snd (main ext SMTP_SERVER SMTP_PORT input_path recipient_path s)))
     = deliveries (trace s).
Proof.
  intros Hpre Hx Hrec Hdoc.
  destruct (main_at_send input_path recipient_path s chunks s0 outputs s1
              recipients s2 Hpre Hx Hrec) as [Hmain Hdel].
  pose proof (send_not_composed ext SMTP_SERVER SMTP_PORT outputs recipients
                (getenv ext "EMAIL_USERNAME" (world s2))
                (getenv ext "EMAIL_PASSWORD" (world s2))
                (record (EvPrint (MsgText "Sending structured output via email..."))
                   s2) e Hdoc) as Esend.
  rewrite (bind_Raise _ _ _ _ _ Esend) in Hmain.
  split; [exact Hmain|]. split; [unfold run_script; now rewrite Hmain|].
  rewrite Hmain. unfold record. cbn [snd trace].
  rewrite deliveries_app, Hdel. simpl. now rewrite app_nil_r.
Qed.

(** X20: when the document cannot be read (unsupported extension, or the
    reader raises), [main] stops with that exception before any service
    call or delivery, and the process exits with status 1. *)
Theorem main_unreadable_document input_path recipient_path (s : state World)
    e s1 :
  read_document ext input_path (record (EvPrint (MsgText "Reading document...")) s)
  = (Raise e, s1) ->
  main ext SMTP_SERVER SMTP_PORT input_path recipient_path s = (Raise e, s1)
  /\ run_script ext SMTP_SERVER SMTP_PORT input_path recipient_path s = (1, s1)
  /\ calls (trace s1) = calls (trace s)
  /\ deliveries (trace s1) = deliveries (trace s).
Proof.
  intros H.
  assert (Hmain : main ext SMTP_SERVER SMTP_PORT input_path recipient_path s
                  = (Raise e, s1)).
  { unfold main. rewrite (bind_Ret (print _) _ s tt _ eq_refl).
    now rewrite (bind_Raise _ _ _ _ _ H). }
  split; [exact Hmain|]. split; [unfold run_script; now rewrite Hmain|].
  pose proof (read_document_trace ext input_path
                (record (EvPrint (MsgText "Reading document...")) s)) as Ht.
  rewrite H in Ht. simpl in Ht.
  destruct Ht as [-> | ->];
    rewrite ?calls_app, ?deliveries_app; simpl; now rewrite ?app_nil_r.
Qed.

Lemma extends_quiet {A} (m : M World A) : quiet m -> extends m.
Proof. intros H s. destruct (H s) as [new [E _]]. now exists new. Qed.

Lemma extends_bind {A B} (m : M World A) (k : A -> M World B) :
  extends m -> (forall a, extends (k a)) -> extends (bind m k).
Proof.
  intros Hm Hk s. unfold bind. destruct (Hm s) as [n1 E1].
  destruct (m s) as [[a|e|] s1]; simpl in *.
  - destruct (Hk a s1) as [n2 E2]. exists (n1 ++ n2).
    now rewrite E2, E1, app_assoc.
  - now exists n1.
  - now exists n1.
Qed.

Lemma extends_epilogue recipient_path outputs :
  extends (epilogue ext SMTP_SERVER SMTP_PORT recipient_path outputs).
Proof.
  unfold epilogue.
  apply extends_bind; [apply extends_quiet, quiet_print | intros _].
  apply extends_bind; [apply extends_quiet, quiet_read_recipients | intros r].
  apply extends_bind; [apply extends_quiet, quiet_print | intros _].
  apply extends_bind; [intros s; exists []; now rewrite app_nil_r | intros u].
  apply extends_bind; [intros s; exists []; now rewrite app_nil_r | intros p].
  apply extends_bind; [|intros _; apply extends_quiet, quiet_print].
  intros s. destruct (compose_document ext outputs) as [doc|e|] eqn:Hdoc.
  - destruct (send_returns outputs r u p s doc Hdoc) as [w [report [E _]]].
    rewrite E. simpl. eauto.
  - rewrite (send_not_composed ext SMTP_SERVER SMTP_PORT outputs r u p s e Hdoc).
    exists []. now rewrite app_nil_r.
  - now destruct (compose_document_settles ext outputs).
Qed.

(** X21: a document of at most 2500 words, an empty one too, is one chunk
    and is sent to the service whole: the first request of the run is the
    prompt built on the text exactly as it was read. *)
Theorem small_document_first_request input_path recipient_path
    (s : state World) raw_text s1 :
  read_document ext input_path
    (record (EvPrint (MsgText "Reading document...")) s)
  = (Ret raw_text, s1) ->
  word_count raw_text <= 2500 ->
  exists rest,
    calls (trace (snd (main ext SMTP_SERVER SMTP_PORT input_path
                         recipient_path s)))
    = calls (trace s) ++ prompt_template raw_text :: rest.
Proof.
  intros Hread Hshort.
  set (s0 := record (EvPrint (MsgTotalChunks 1))
               (record (EvPrint (MsgText "Splitting document into chunks..."))
                  s1)).
  assert (Hsplit : smart_split_text_default raw_text = Ret [raw_text]).
  { unfold smart_split_text_default, smart_split_text.
    fold (word_count raw_text).
    destruct (Z.leb_spec (word_count raw_text) (3000 - 500));
      [reflexivity | lia]. }
  assert (Hpre : prelude ext input_path s = (Ret [raw_text], s0)).
  { unfold prelude. rewrite (bind_Ret (print _) _ s tt _ eq_refl).
    rewrite (bind_Ret _ _ _ _ _ Hread).
    rewrite (bind_Ret (print _) _ s1 tt _ eq_refl).
    unfold lift. rewrite Hsplit. reflexivity. }
  assert (Hcalls0 : calls (trace s0) = calls (trace s)).
  { pose proof (read_document_trace ext input_path
                  (record (EvPrint (MsgText "Reading document...")) s)) as Ht.
    rewrite Hread in Ht. unfold s0, record. simpl in *.
    destruct Ht as [-> | ->]; rewrite !calls_app; simpl;
      now rewrite ?app_nil_r. }
  rewrite main_phases, (bind_Ret _ _ _ _ _ Hpre).
  destruct (extract_use_cases_run ext raw_text 5 s0)
    as [errors [_ [[r [w [_ [_ Hrun]]]]|[Hlen [w Hrun]]]]].
  - assert (Hloop : for_each_chunk ext [raw_text] [] s0
                    = (Ret [r],
                       {| world := w;
                          trace :=
                            trace s0
                            ++ failures_trace (prompt_template raw_text) 5 0
                                 errors
                            ++ [EvTextGeneration (prompt_template raw_text)
                                  generation_settings] |})).
    { apply (for_each_chunk_extractions ext [raw_text] [] s0 [r]).
      eapply extractions_cons; [exact Hrun | apply extractions_nil]. }
    rewrite (bind_Ret _ _ _ _ _ Hloop).
    destruct (extends_epilogue recipient_path [r]
                {| world := w;
                   trace := trace s0
                            ++ failures_trace (prompt_template raw_text) 5 0 errors
                            ++ [EvTextGeneration (prompt_template raw_text)
                                  generation_settings] |}) as [more E].
    rewrite E. cbn [trace].
    rewrite !calls_app, calls_failures, Hcalls0. cbn [calls].
    exists (repeat (prompt_template raw_text) (length errors) ++ calls more).
    rewrite <- !app_assoc. f_equal.
    rewrite (app_assoc (repeat _ _) [_] (calls more)).
    change (prompt_template raw_text
            :: repeat (prompt_template raw_text) (length errors) ++ calls more)
      with ((prompt_template raw_text
             :: repeat (prompt_template raw_text) (length errors)) ++ calls more).
    f_equal.
    change (prompt_template raw_text
            :: repeat (prompt_template raw_text) (length errors))
      with (repeat (prompt_template raw_text) (S (length errors))).
    now rewrite <- Nat.add_1_r, repeat_app.
  - assert (Hloop : for_each_chunk ext [raw_text] [] s0
                    = (Raise exhausted,
                       {| world := w;
                          trace :=
                            trace s0
                            ++ failures_trace (prompt_template raw_text) 5 0
                                 errors |})).
    { simpl. unfold bind. now rewrite Hrun. }
    rewrite (bind_Raise _ _ _ _ _ Hloop). cbn [snd trace].
    rewrite calls_app, calls_failures, Hcalls0, Hlen.
    now exists (repeat (prompt_template raw_text) 4).
Qed.

End MainMore.

(** ** Concrete runs for the further properties *)

Section MoreRuns.
Import PyStr Effects Chunker Email ExAuto Spec Observations Scripted Formats.

Lemma read_document_unsupported_witness :
  read_document (Formats.ext (of_string ".md") mail_ok) input_path
    (short_run [])
  = (Raise (ValueError "Unsupported file format."), short_run []).
Proof.
  apply (read_document_unsupported (Formats.ext (of_string ".md") mail_ok)
           input_path (short_run [])); discriminate.
Defined.

Lemma read_document_parts_witness :
  fst (read_document (Formats.ext (of_string ".pdf") mail_ok) input_path
         (short_run []))
  = Ret (of_string "the clerk opens a ticket" ++ [chr_newline]
         ++ of_string "the clerk opens a ticket" ++ [chr_newline]).
Proof.
  destruct (read_document_parts (Formats.ext (of_string ".pdf") mail_ok)
              input_path (short_run [])
              [of_string "the clerk opens a ticket";
               of_string "the clerk opens a ticket"]
              (world (short_run []))
              (or_introl (conj eq_refl eq_refl))) as [E _].
  rewrite E. reflexivity.
Defined.

Lemma read_document_txt_witness :
  read_document (Scripted.ext mail_ok) input_path (short_run [])
  = (Ret (of_string "the clerk opens a ticket"),
     {| world := world (short_run []);
        trace := [EvReadDocument input_path] |}).
Proof.
  exact (read_document_txt (Scripted.ext mail_ok) input_path (short_run [])
           (ok "the clerk opens a ticket") (world (short_run []))
           eq_refl eq_refl).
Defined.

Lemma smart_split_text_nonpositive_witness :
  500 - 500 <= 0
  /\ smart_split_text (of_string "a b c") 500 500
     = Raise (ValueError "range() arg 3 must not be zero")
  /\ smart_split_text (of_string "a b c") 400 500 = Ret [].
Proof.
  split; [lia|]. split.
  - apply (smart_split_text_nonpositive (of_string "a b c") 500 500). lia.
  - apply (smart_split_text_nonpositive (of_string "a b c") 400 500). lia.
Defined.

Lemma chunks_normalised_witness :
  smart_split_text (of_string " a b   c d e ") 5 3
  = Ret [of_string "a b"; of_string "c d"; of_string "e"]
  /\ join [chr_space] (split (of_string "c d")) = of_string "c d"
  /\ smart_split_text (of_string "c d") 5 3 = Ret [of_string "c d"].
Proof.
  split; [reflexivity|].
  apply (chunks_normalised (of_string " a b   c d e ") 5 3
           [of_string "a b"; of_string "c d"; of_string "e"]);
    [reflexivity | reflexivity | reflexivity | right; left; reflexivity].
Defined.

Lemma first_success_third_attempt :
  first_success (Scripted.ext mail_ok) (of_string "chunk")
    (world (short_run [ko; ko; ok "use cases"])) 2 (of_string "use cases").
Proof.
  split; [|reflexivity]. intros [|[|j]] Hj; [exact I | exact I | lia].
Defined.

Lemma wait_before_success_witness :
  exists new,
    trace (snd (extract_use_cases (Scripted.ext mail_ok) (of_string "chunk") 5
                  (short_run [ko; ko; ok "use cases"])))
    = trace (short_run [ko; ko; ok "use cases"]) ++ new
    /\ length (sleeps new) = 2%nat
    /\ total_wait new = 2 ^ Z.of_nat 2 - 1.
Proof.
  apply (wait_before_success (Scripted.ext mail_ok) (of_string "chunk") 5
           (short_run [ko; ko; ok "use cases"]) 2 (of_string "use cases"));
    [lia | exact first_success_third_attempt].
Defined.

Lemma more_retries_same_response_witness :
  fst (extract_use_cases (Scripted.ext mail_ok) (of_string "chunk") 3
         (short_run [ko; ko; ok "use cases"]))
  = Ret (of_string "use cases")
  /\ fst (extract_use_cases (Scripted.ext mail_ok) (of_string "chunk") 5
            (short_run [ko; ko; ok "use cases"]))
     = Ret (of_string "use cases").
Proof.
  split; [reflexivity|].
  apply (more_retries_same_response (Scripted.ext mail_ok) (of_string "chunk")
           3 5 (short_run [ko; ko; ok "use cases"]) (of_string "use cases"));
    [reflexivity | lia].
Defined.

Lemma valid_email_one_at_witness :
  is_valid_email (of_string "a@b.com") = true
  /\ count_occ N.eq_dec (of_string "a@b.com") 64%N = 1%nat
  /\ (6 <= length (of_string "a@b.com"))%nat.
Proof.
  split; [reflexivity|].
  apply (valid_email_one_at (of_string "a@b.com")). reflexivity.
Defined.

Lemma valid_email_final_newline_witness :
  is_valid_email (of_string "a@b.com") = true
  /\ is_valid_email (of_string "a@b.com" ++ [chr_newline]) = true.
Proof.
  split; [reflexivity|].
  apply (valid_email_final_newline (of_string "a@b.com")); [reflexivity|].
  simpl. intros H. repeat (destruct H as [H|H]; [discriminate H|]).
  exact H.
Defined.

Lemma recipients_clean_witness :
  fst (read_recipients_from_file (Scripted.ext mail_ok) recipient_path
         (short_run []))
  = Ret (map of_string ["a@b.com"; "c@d.org"]%string)
  /\ is_valid_email (of_string "c@d.org") = true
  /\ of_string "c@d.org" <> []
  /\ no_space (of_string "c@d.org").
Proof.
  split; [reflexivity|].
  apply (recipients_clean (Scripted.ext mail_ok) recipient_path (short_run [])
           (map of_string ["a@b.com"; "c@d.org"]%string)
           (snd (read_recipients_from_file (Scripted.ext mail_ok) recipient_path
                   (short_run []))));
    [reflexivity | right; left; reflexivity].
Defined.

Lemma validation_idempotent_witness :
  map strip validated_lines = map of_string ["a@b.com"; "c@d.org"]%string
  /\ read_recipients_from_file (Scripted.ext mail_ok) recipient_path
       validated_run
     = (Ret (map of_string ["a@b.com"; "c@d.org"]%string),
        {| world := world validated_run;
           trace := trace validated_run ++ [EvReadRecipients recipient_path] |}).
Proof.
  split; [reflexivity|].
  apply (validation_idempotent (Scripted.ext mail_ok) recipient_path
           (short_run [])
           (map of_string ["a@b.com"; "c@d.org"]%string)
           (snd (read_recipients_from_file (Scripted.ext mail_ok) recipient_path
                   (short_run [])))
           recipient_path validated_run validated_lines (world validated_run));
    reflexivity.
Defined.

Lemma recipients_file_unreadable_witness :
  read_recipients_from_file (Scripted.ext mail_ok) recipient_path unreadable_run
  = (Ret [],
     {| world := world unreadable_run;
        trace := [EvReadRecipients recipient_path;
                  EvPrint (MsgRecipientsError unavailable)] |}).
Proof.
  destruct (recipients_file_unreadable (Scripted.ext mail_ok) recipient_path
              unreadable_run unavailable (world unreadable_run) eq_refl)
    as [E _].
  exact E.
Defined.

Lemma short_extractions mail s :
  extract_use_cases (Scripted.ext mail) (of_string "the clerk opens a ticket") 5
    (at_loop mail s)
  = (Ret (of_string "use cases"), at_recipients mail s) ->
  extractions (Scripted.ext mail) [of_string "the clerk opens a ticket"]
    (at_loop mail s) [of_string "use cases"] (at_recipients mail s).
Proof.
  intros H. eapply extractions_cons; [exact H | apply extractions_nil].
Defined.

Lemma document_chunk_headings_witness :
  compose_document (Scripted.ext mail_ok)
    [of_string "use cases"; of_string "- Use Case Title: Pay"]
  = Ret [Heading (of_string "Extracted Use Cases") 0;
         Heading (of_string "Chunk 1") 1;
         Paragraph (of_string "use cases") None;
         Heading (of_string "Chunk 2") 1;
         Heading (of_string "Use Case Title: Pay") 2]
  /\ chunk_headings
       [Heading (of_string "Extracted Use Cases") 0;
        Heading (of_string "Chunk 1") 1;
        Paragraph (of_string "use cases") None;
        Heading (of_string "Chunk 2") 1;
        Heading (of_string "Use Case Title: Pay") 2]
     = [of_string "Chunk 1"; of_string "Chunk 2"].
Proof.
  split; [reflexivity|].
  destruct (document_chunk_headings (Scripted.ext mail_ok)
              [of_string "use cases"; of_string "- Use Case Title: Pay"]
              _ eq_refl) as [_ H].
  exact H.
Defined.

Lemma one_element_per_line_witness :
  exists elements,
    [Heading (of_string "Chunk 1") 1; Paragraph (of_string "- actor") (Some "List Bullet"%string);
     Paragraph (of_string "note") None]
    = [] ++ Heading (of_string "Chunk " ++ decimal_of_nat 1) 1 :: elements
    /\ length elements
       = length (filter rendered
                   (split_on chr_newline
                      (of_string "- actor" ++ [chr_newline; chr_newline]
                       ++ of_string "note"))).
Proof.
  apply (one_element_per_line (Scripted.ext mail_ok) [] 1
           (of_string "- actor" ++ [chr_newline; chr_newline]
            ++ of_string "note")).
  reflexivity.
Defined.

Lemma main_success_witness :
  exists s',
    run_script (Scripted.ext mail_ok) None 587 input_path recipient_path
      refused_run = (0, s')
    /\ deliveries (trace s')
       = [outgoing_message refused_doc
            (map of_string ["a@b.com"; "c@d.org"]%string)
            (Some (of_string "sender@example.com"))].
Proof.
  destruct (main_success (Scripted.ext mail_ok) None 587 input_path
              recipient_path refused_run
              [of_string "the clerk opens a ticket"] (at_loop mail_ok refused_run)
              [of_string "use cases"] (at_recipients mail_ok refused_run)
              (map of_string ["a@b.com"; "c@d.org"]%string)
              (at_sending mail_ok refused_run)
              refused_doc
              (world (at_sending mail_ok refused_run))
              eq_refl
              (short_extractions mail_ok refused_run eq_refl)
              eq_refl eq_refl eq_refl)
    as [s' [Hrun [_ [Hdel _]]]].
  exists s'. split; [exact Hrun | exact Hdel].
Defined.

Lemma main_sends_to_nobody_witness :
  exists s' msg,
    run_script (Scripted.ext mail_ok) None 587 input_path recipient_path
      unreadable_run = (0, s')
    /\ deliveries (trace s') = [msg]
    /\ msg_to msg = [].
Proof.
  destruct (main_sends_to_nobody (Scripted.ext mail_ok) None 587 input_path
              recipient_path unreadable_run
              [of_string "the clerk opens a ticket"]
              (at_loop mail_ok unreadable_run)
              [of_string "use cases"] (at_recipients mail_ok unreadable_run)
              (at_sending mail_ok unreadable_run)
              refused_doc
              eq_refl
              (short_extractions mail_ok unreadable_run eq_refl)
              eq_refl eq_refl)
    as [s' [msg [Hrun [Hdel [Hto _]]]]].
  exists s', msg. split; [exact Hrun|]. split; [exact Hdel | exact Hto].
Defined.

(** The service answers a text that holds a vertical tab: the document is
    not composed, no session is opened, the exit status is 1. *)
Lemma main_document_refused_witness :
  compose_document (Scripted.ext mail_ok) [control_response]
  = Raise not_xml_compatible
  /\ fst (main (Scripted.ext mail_ok) None 587 input_path recipient_path
            control_run) = Raise not_xml_compatible
  /\ fst (run_script (Scripted.ext mail_ok) None 587 input_path recipient_path
            control_run) = 1
  /\ deliveries
       (trace (snd (main (Scripted.ext mail_ok) None 587 input_path
                      recipient_path control_run))) = [].
Proof.
  assert (Hx : extractions (Scripted.ext mail_ok)
                 [of_string "the clerk opens a ticket"]
                 (at_loop mail_ok control_run) [control_response]
                 (at_recipients mail_ok control_run)).
  { eapply extractions_cons; [reflexivity | apply extractions_nil]. }
  destruct (main_document_refused (Scripted.ext mail_ok) None 587 input_path
              recipient_path control_run
              [of_string "the clerk opens a ticket"]
              (at_loop mail_ok control_run)
              [control_response] (at_recipients mail_ok control_run)
              (map of_string ["a@b.com"; "c@d.org"]%string)
              (at_sending mail_ok control_run)
              not_xml_compatible
              eq_refl Hx eq_refl eq_refl)
    as [Hmain [Hrun Hdel]].
  split; [reflexivity|]. split; [now rewrite Hmain|].
  split; [exact Hrun | exact Hdel].
Defined.

Lemma main_unreadable_document_witness :
  run_script (Formats.ext (of_string ".md") mail_ok) None 587 input_path
    recipient_path (short_run [ok "use cases"])
  = (1, record (EvPrint (MsgText "Reading document..."))
          (short_run [ok "use cases"])).
Proof.
  destruct (main_unreadable_document (Formats.ext (of_string ".md") mail_ok)
              None 587 input_path recipient_path (short_run [ok "use cases"])
              (ValueError "Unsupported file format.")
              (record (EvPrint (MsgText "Reading document..."))
                 (short_run [ok "use cases"]))
              eq_refl) as [_ [Hrun _]].
  exact Hrun.
Defined.

Lemma small_document_first_request_witness :
  word_count [] <= 2500
  /\ exists rest,
       calls (trace (snd (main (Scripted.ext mail_ok) None 587 input_path
                            recipient_path empty_run)))
       = calls (trace empty_run) ++ prompt_template [] :: rest.
Proof.
  split; [discriminate|].
  apply (small_document_first_request (Scripted.ext mail_ok) None 587
           input_path recipient_path empty_run []
           (snd (read_document (Scripted.ext mail_ok) input_path
                   (record (EvPrint (MsgText "Reading document..."))
                      empty_run))));
    [reflexivity | discriminate].
Defined.

End MoreRuns.
